(** * HyperLogLog cardinality estimator (hyperloglog.go): model and properties

    A shallow embedding of the Go package [hyperloglog].  Unsigned machine
    integers are values of [Z] with their wrap-around written out, the
    register slice is a [list Z] of bytes, [float64] is Rocq's primitive
    binary64 [float], and a Go call that may panic or loop is a computation
    in the [exec] monad below. *)

From Stdlib Require Import ZArith Lia Bool String Ascii DecimalString.
From Stdlib Require Import PrimFloat FloatOps SpecFloat FloatAxioms.
From stdpp Require Import base list.

#[local] Set Warnings "-inexact-float".
#[local] Open Scope Z_scope.

(** ** Machine integers *)

(** Go's [uint] is 64 bits wide on the 64-bit targets modelled here. *)
Definition uint_bits : Z := 64.

Definition u8 (x : Z) : Z := x mod 2 ^ 8.
Definition u32 (x : Z) : Z := x mod 2 ^ 32.
Definition u64 (x : Z) : Z := x mod 2 ^ 64.
Definition uint (x : Z) : Z := x mod 2 ^ uint_bits.

(** [x << n] and [x >> n] on a [uint32]: a shift count of 32 or more gives 0
    (Go shifts as if by 1, [n] times). *)
Definition shl32 (x n : Z) : Z := if n <? 32 then u32 (Z.shiftl x n) else 0.
Definition shr32 (x n : Z) : Z := if n <? 32 then Z.shiftr x n else 0.

(** ** Outcomes of a Go call *)

(** A call returns, panics with a run-time error, or has not returned when
    the fuel given to its loops is spent. *)
Inductive exec (T : Type) : Type :=
| Done (a : T)
| Panic (msg : string)
| Timeout.
Arguments Done {T} a.
Arguments Panic {T} msg.
Arguments Timeout {T}.

#[export] Instance exec_ret : MRet exec := fun _ a => Done a.
#[export] Instance exec_bind : MBind exec := fun _ _ k c =>
  match c with
  | Done a => k a
  | Panic msg => Panic msg
  | Timeout => Timeout
  end.

(** A fuelled computation terminates when some amount of fuel is enough for
    it to return or panic. *)
Definition terminates {T : Type} (run : nat -> exec T) : Prop :=
  exists fuel, run fuel <> Timeout.

Definition index_out_of_range : string := "index out of range".

(** ** float64 and the functions of package math that the estimator calls *)

Module Float64.

(** [float64(x)] for an integer [x]: the nearest binary64 value, ties to
    even. *)
Definition of_int (z : Z) : float :=
  SF2Prim (binary_normalize prec emax z 0 false).

(** The integer part of a finite value (the fraction is discarded);
    [None] for an infinity or a NaN. *)
Definition truncate (f : float) : option Z :=
  match Prim2SF f with
  | S754_zero _ => Some 0
  | S754_finite s mant e =>
      let a := Z.shiftl (Zpos mant) e in
      Some (if s then - a else a)
  | S754_infinity _ | S754_nan => None
  end.

(** What a conversion to an unsigned integer type yields when the type
    cannot hold the truncated value: Go leaves it to the implementation. *)
Record Target : Type := mkTarget {
  indefinite32 : float -> Z;
  indefinite64 : float -> Z
}.

Definition to_unsigned (bits : Z) (indefinite : float -> Z) (f : float) : Z :=
  match truncate f with
  | Some z => if (0 <=? z) && (z <? 2 ^ bits) then z else indefinite f mod 2 ^ bits
  | None => indefinite f mod 2 ^ bits
  end.

Definition to_uint32 (T : Target) : float -> Z := to_unsigned 32 (indefinite32 T).
Definition to_uint64 (T : Target) : float -> Z := to_unsigned 64 (indefinite64 T).

(** A target on which every such conversion yields 0. *)
Definition zero_target : Target := mkTarget (fun _ => 0) (fun _ => 0).

(** [math.Frexp]: a fraction in [[1/2, 1)] and a power of two. *)
Definition Frexp (f : float) : float * Z :=
  if is_zero f || is_infinity f || is_nan f then (f, 0) else Z.frexp f.

(** [math.Modf] of a value that is not negative. *)
Definition Modf (f : float) : float * float :=
  match truncate f with
  | Some z => let int := of_int z in (int, (f - int)%float)
  | None => (f, nan)
  end.

Definition Floor (x : float) : float :=
  if (x =? 0)%float || is_nan x || is_infinity x then x
  else if (x <? 0)%float then
    let '(d, fract) := Modf (- x)%float in
    let d := if negb (fract =? 0)%float then (d + 1)%float else d in
    (- d)%float
  else fst (Modf x).

Definition Ceil (x : float) : float := (- Floor (- x))%float.

(** The constants [Sqrt2/2] and [1/Ln2] of package math: Go evaluates a
    constant expression exactly and rounds it once. *)
Definition Sqrt2_half : float := 0.70710678118654752440084436210484903928.
Definition Ln2_inverse : float := 1.44269504088896340735992468100189214.

(** [math.Log], the portable implementation of package math (after
    FreeBSD's e_log.c); every operation is rounded on its own. *)
Definition Log (x : float) : float :=
  let Ln2Hi := 6.93147180369123816490e-01%float in
  let Ln2Lo := 1.90821492927058770002e-10%float in
  let L1 := 6.666666666666735130e-01%float in
  let L2 := 3.999999999940941908e-01%float in
  let L3 := 2.857142874366239149e-01%float in
  let L4 := 2.222219843214978396e-01%float in
  let L5 := 1.818357216161805012e-01%float in
  let L6 := 1.531383769920937332e-01%float in
  let L7 := 1.479819860511658591e-01%float in
  if is_nan x || (x =? infinity)%float then x
  else if (x <? 0)%float then nan
  else if (x =? 0)%float then neg_infinity
  else
    let '(f1, ki) := Frexp x in
    let '(f1, ki) :=
      if (f1 <? Sqrt2_half)%float then ((f1 * 2)%float, ki - 1) else (f1, ki) in
    let f := (f1 - 1)%float in
    let k := of_int ki in
    let s := (f / (2 + f))%float in
    let s2 := (s * s)%float in
    let s4 := (s2 * s2)%float in
    let t1 := (s2 * (L1 + s4 * (L3 + s4 * (L5 + s4 * L7))))%float in
    let t2 := (s4 * (L2 + s4 * (L4 + s4 * L6)))%float in
    let R := (t1 + t2)%float in
    let hfsq := (0.5 * f * f)%float in
    (k * Ln2Hi - ((hfsq - (s * (hfsq + R) + k * Ln2Lo)) - f))%float.

(** [math.Log2]: exact on the powers of two. *)
Definition Log2 (x : float) : float :=
  let '(frac, exp) := Frexp x in
  if (frac =? 0.5)%float then of_int (exp - 1)
  else (Log frac * Ln2_inverse + of_int exp)%float.

(** [math.Pow(2.0, float64(val))] for a byte [val]: the power of two,
    which binary64 holds exactly. *)
Definition Pow2 (val : Z) : float := Z.ldexp 1 val.

End Float64.

Import Float64.

(** ** The estimator *)

Record HyperLogLog : Type := mkHyperLogLog {
  m : Z;                (* uint: number of registers *)
  b : Z;                (* uint32: bits used to determine the register index *)
  alpha : float;        (* bias correction constant *)
  registers : list Z    (* []uint8 *)
}.

Definition set_registers (h : HyperLogLog) (regs : list Z) : HyperLogLog :=
  mkHyperLogLog (m h) (b h) (alpha h) regs.

(** [fmt.Errorf] with [%d] verbs: decimal rendering of an unsigned value. *)
Definition dec (n : Z) : string := NilZero.string_of_uint (N.to_uint (Z.to_N n)).

Definition not_power_of_two_error (n : Z) : string :=
  ("number of registers " ++ dec n ++ " not a power of two")%string.

Definition mismatch_error (m1 m2 : Z) : string :=
  ("number of registers doesn't match: " ++ dec m1 ++ " != " ++ dec m2)%string.

(** ** rho and Add *)

(** The loop of [rho]: one unit of fuel per evaluation of its condition. *)
Fixpoint rho_loop (fuel : nat) (val max r : Z) : exec Z :=
  match fuel with
  | O => Timeout
  | S fuel' =>
      if (Z.land val 0x80000000 =? 0) && (r <=? max)
      then rho_loop fuel' (shl32 val 1) max (u32 (r + 1))
      else Done (u8 r)
  end.

Definition rho (fuel : nat) (val max : Z) : exec Z := rho_loop fuel val max 1.

Definition Add (fuel : nat) (h : HyperLogLog) (val : Z) : exec HyperLogLog :=
  let k := u32 (32 - b h) in
  r ← rho fuel (shl32 val (b h)) k;
  let j := shr32 val k in
  match registers h !! Z.to_nat j with
  | None => Panic index_out_of_range
  | Some old =>
      Done (if old <? r
            then set_registers h (<[Z.to_nat j := r]> (registers h))
            else h)
  end.

(** ** Merge *)

(** The loop of [Merge] over [h2.registers], from index [j] on, updating the
    registers [regs1] of the receiver; indexing [regs1] out of range panics. *)
Fixpoint merge_loop (j : nat) (regs2 regs1 : list Z) : exec (list Z) :=
  match regs2 with
  | [] => Done regs1
  | r :: rest =>
      match regs1 !! j with
      | None => Panic index_out_of_range
      | Some old =>
          merge_loop (S j) rest (if old <? r then <[j := r]> regs1 else regs1)
      end
  end.

(** The result pairs the receiver after the call with the returned [error]
    ([None] is [nil]). *)
Definition Merge (h1 h2 : HyperLogLog) : exec (HyperLogLog * option string) :=
  if negb (m h1 =? m h2)
  then Done (h1, Some (mismatch_error (m h1) (m h2)))
  else
    regs ← merge_loop 0 (registers h2) (registers h1);
    Done (set_registers h1 regs, None).

(** ** Construction and Reset *)

(** Compute bias correction alpha_m. *)
Definition get_alpha (n : Z) : float :=
  if n =? 16 then 0.673
  else if n =? 32 then 0.697
  else if n =? 64 then 0.709
  else (0.7213 / (1.0 + 1.079 / of_int n))%float.

(** Reset all internal variables and set the count to zero. *)
Definition Reset (h : HyperLogLog) : HyperLogLog :=
  set_registers h (replicate (Z.to_nat (m h)) 0).

(** [uint32(math.Ceil(math.Log2(float64(registers))))], the value [New]
    stores in [h.b]. *)
Definition index_bits (T : Target) (n : Z) : Z :=
  to_uint32 T (Ceil (Log2 (of_int n))).

(** [inl h] is the return of [h, nil] and [inr e] that of [nil, e]. *)
Definition New (T : Target) (n : Z) : HyperLogLog + string :=
  if negb (Z.land n (uint (n - 1)) =? 0)
  then inr (not_power_of_two_error n)
  else
    let h := mkHyperLogLog n (index_bits T n) (get_alpha n) [] in
    inl (Reset h).

(** ** Count *)

Definition exp32 : float := 4294967296.

Definition Count (T : Target) (h : HyperLogLog) : Z :=
  let sum :=
    fold_left (fun sum val => (sum + 1.0 / Pow2 val)%float) (registers h) 0%float in
  let fm := of_int (m h) in
  let estimate := (alpha h * fm * fm / sum)%float in
  let estimate :=
    if (estimate <=? 5.0 / 2.0 * fm)%float then
      (* Small range correction *)
      let v := fold_left (fun v r => if r =? 0 then v + 1 else v) (registers h) 0 in
      if 0 <? v then (fm * Log (fm / of_int v))%float else estimate
    else if (1.0 / 30.0 * exp32 <? estimate)%float then
      (* Large range correction *)
      (- exp32 * Log (1 - estimate / exp32))%float
    else estimate in
  to_uint64 T estimate.

(** ** Intersect *)

Definition Intersect (T : Target) (h1 h2 : HyperLogLog) : exec (Z * option string) :=
  if negb (m h1 =? m h2)
  then Done (0, Some (mismatch_error (m h1) (m h2)))
  else
    match New T (m h1) with
    | inr mergeErr => Done (0, Some mergeErr)
    | inl merged =>
        r1 ← Merge merged h1;
        r2 ← Merge r1.1 h2;
        let unionCount := Count T r2.1 in
        let cumulativeCount := u64 (Count T h1 + Count T h2) in
        if cumulativeCount <? unionCount
        then Done (0, None)
        else Done (u64 (cumulativeCount - unionCount), None)
    end.

(** ** Unserialize *)

Record DataObj : Type := mkDataObj {
  M : Z;         (* uint *)
  B : Z;         (* uint32 *)
  A : float;     (* float64 *)
  R : list Z     (* []int *)
}.

(** [Unserialize] has no result.  [unmarshal str] stands for
    [json.Unmarshal([]byte(str), &m)] on a zero [m]: the value left in [m]
    and the returned error.  The outcome is the receiver after the call and
    the lines printed on standard output. *)
Definition Unserialize (unmarshal : string -> DataObj * option string)
    (h : HyperLogLog) (str : string) : HyperLogLog * list string :=
  match unmarshal str with
  | (_, Some err) => (h, [("error: " ++ err)%string])
  | (d, None) =>
      let reg := map u8 (R d) in
      (mkHyperLogLog (M d) (B d) (A d) reg, [])
  end.

(** ** SerializeData and Serialize *)

(** Data to serialize: [int(v)] of a byte [v] is [v]. *)
Definition SerializeData (h : HyperLogLog) : DataObj :=
  mkDataObj (m h) (b h) (alpha h) (map (fun v => v) (registers h)).

(** [marshal d] stands for [json.Marshal(d)]: [inl] the text, or [inr] the
    error.  The outcome is the returned string and the lines printed on
    standard output. *)
Definition Serialize (marshal : DataObj -> string + string) (h : HyperLogLog)
    : string * list string :=
  match marshal (SerializeData h) with
  | inr err => (EmptyString, [("error: " ++ err)%string])
  | inl text => (text, [])
  end.

(** ** The data model of the specification *)

Definition byte (x : Z) : Prop := 0 <= x < 256.

(** [len(registers) == registerCount]. *)
Definition length_invariant (h : HyperLogLog) : Prop :=
  Z.of_nat (length (registers h)) = m h.

(** An estimator as the data model has it: [m] is a power of two, [b] its
    logarithm, and there are [m] one-byte registers. *)
Record valid (h : HyperLogLog) : Prop := mkValid {
  valid_m : m h = 2 ^ b h;
  valid_b : 0 <= b h < uint_bits;
  valid_length : length_invariant h;
  valid_bytes : Forall byte (registers h)
}.

(** The position, counted from 1 at the top of a 32-bit word, of the leftmost
    set bit of [w]; [max + 1] when [w] has no set bit. *)
Definition rank (w max : Z) : Z :=
  if w =? 0 then max + 1 else 32 - Z.log2 w.

(** Every register holds a rank that [rho] can return with [32 - b] bits
    left: at most [32 - b + 1]. *)
Definition ranks_bounded (h : HyperLogLog) : Prop :=
  Forall (fun r => 0 <= r <= 32 - b h + 1) (registers h).

(** A 32-bit hash. *)
Definition hash32 (val : Z) : Prop := 0 <= val < 2 ^ 32.

(** ** The estimate as the specification words it *)

(** Sum over all registers of [2^-registers[i]], in index order. *)
Definition harmonic_sum (regs : list Z) : float :=
  fold_left add (map (fun r => Z.ldexp 1 (- r)) regs) 0%float.

(** [E = alpha * m^2 / sum]. *)
Definition raw_estimate (h : HyperLogLog) : float :=
  (alpha h * of_int (m h) * of_int (m h) / harmonic_sum (registers h))%float.

(** The number [v] of registers still at zero. *)
Definition zero_registers (regs : list Z) : Z :=
  Z.of_nat (length (filter (fun r => r = 0) regs)).

Definition corrected_estimate (h : HyperLogLog) : float :=
  let E := raw_estimate h in
  let fm := of_int (m h) in
  let v := zero_registers (registers h) in
  if (E <=? 2.5 * fm)%float then
    if 0 <? v then (fm * Log (fm / of_int v))%float else E
  else if (1 / 30 * 4294967296 <? E)%float then
    (- (4294967296) * Log (1 - E / 4294967296))%float
  else E.

(** ** Integers in binary64 *)

(** [q * 2^n] on positive numbers. *)
Definition shift_pos_nat (q : positive) (n : nat) : positive := Nat.iter n xO q.

(** The canonical binary64 form of a positive integer of at most 53 digits. *)
Definition canonical (q : positive) : spec_float :=
  S754_finite false (shift_pos_nat q (Z.to_nat (53 - Zpos (digits2_pos q))))
    (Zpos (digits2_pos q) - 53).

(** ** Sample estimators, hashes and snapshots *)

(** The estimator that [New] returns for 2^33 registers. *)
Definition estimator_2_33 : HyperLogLog :=
  mkHyperLogLog (2 ^ 33) 33 (get_alpha (2 ^ 33)) (replicate (Z.to_nat (2 ^ 33)) 0).

(** [Add] of each hash of a list in turn. *)
Definition Add_all (fuel : nat) (h : HyperLogLog) (hashes : list Z) : exec HyperLogLog :=
  foldl (fun acc val => h' ← acc; Add fuel h' val) (Done h) hashes.

(** Fifteen hashes, one for each register 1..15, each of rank 1; and one hash
    of rank 1 for register 0. *)
Definition hashes_A : list Z := map (fun j => j * 2 ^ 28 + 2 ^ 27) (seqZ 1 15).
Definition hashes_B : list Z := [2 ^ 27].

Definition estimator_A : HyperLogLog := mkHyperLogLog 16 4 0.673 (0 :: replicate 15 1).
Definition estimator_B : HyperLogLog := mkHyperLogLog 16 4 0.673 (1 :: replicate 15 0).
Definition estimator_AB : HyperLogLog := mkHyperLogLog 16 4 0.673 (replicate 16 1).

(** The double quote of a JSON text. *)
Definition dq : string := String (ascii_of_nat 34) EmptyString.

(** [{"M":16,"B":4,"A":0.673,"R":[0,0,0,0,0,0,0,0,0,0,0,0,0,0,0,0]}] *)
Definition snapshot_16 : string :=
  ("{" ++ dq ++ "M" ++ dq ++ ":16," ++ dq ++ "B" ++ dq ++ ":4," ++ dq ++ "A" ++ dq
   ++ ":0.673," ++ dq ++ "R" ++ dq ++ ":[0,0,0,0,0,0,0,0,0,0,0,0,0,0,0,0]}")%string.

(** [{"M":16,"B":4,"A":0.673,"R":[]}] *)
Definition snapshot_without_registers : string :=
  ("{" ++ dq ++ "M" ++ dq ++ ":16," ++ dq ++ "B" ++ dq ++ ":4," ++ dq ++ "A" ++ dq
   ++ ":0.673," ++ dq ++ "R" ++ dq ++ ":[]}")%string.

(** [{"M":16,] *)
Definition snapshot_cut_short : string :=
  ("{" ++ dq ++ "M" ++ dq ++ ":16,")%string.

(** [json.Unmarshal] into a zero [DataObj] on the three texts above; any
    other text is treated here like the one cut short. *)
Definition unmarshal_samples (str : string) : DataObj * option string :=
  if String.eqb str snapshot_16
  then (mkDataObj 16 4 0.673 (replicate 16 0), None)
  else if String.eqb str snapshot_without_registers
  then (mkDataObj 16 4 0.673 [], None)
  else (mkDataObj 0 0 0 [], Some "unexpected end of JSON input"%string).

(** * Properties *)

(** ** Machine words *)

Lemma land_top_bit (w : Z) :
  0 <= w < 2 ^ 32 -> (Z.land w 0x80000000 =? 0) = (w <? 2 ^ 31).
Proof.
  intros Hw. change 0x80000000 with (2 ^ 31).
  destruct (Z.ltb_spec w (2 ^ 31)) as [Hlt | Hge].
  - apply Z.eqb_eq, Z.bits_inj'. intros n Hn.
    rewrite Z.land_spec, Z.bits_0, Z.pow2_bits_eqb by lia.
    destruct (Z.eqb_spec 31 n) as [<- | _]; [| apply andb_false_r].
    rewrite andb_true_r. apply Z.testbit_false; [lia |].
    rewrite Z.div_small; [reflexivity | lia].
  - apply Z.eqb_neq. intros E.
    assert (Hbit : Z.testbit (Z.land w (2 ^ 31)) 31 = true).
    { rewrite Z.land_spec, Z.pow2_bits_true, andb_true_r by lia.
      apply Z.testbit_true; [lia |].
      replace (w / 2 ^ 31) with 1; [reflexivity |].
      apply Z.div_unique with (r := w - 2 ^ 31); lia. }
    rewrite E, Z.bits_0 in Hbit. discriminate.
Qed.

Lemma shl32_1 (w : Z) : 0 <= w < 2 ^ 31 -> shl32 w 1 = 2 * w.
Proof.
  intros Hw. unfold shl32, u32. change (1 <? 32) with true. cbv iota.
  rewrite Z.shiftl_mul_pow2 by lia. change (2 ^ 1) with 2.
  rewrite Z.mod_small; lia.
Qed.

Lemma land_double_succ_double (x y : Z) :
  Z.land (2 * x) (2 * y + 1) = 2 * Z.land x y.
Proof.
  apply Z.bits_inj'. intros n Hn. rewrite Z.land_spec.
  destruct (Z.eq_dec n 0) as [-> | Hn0].
  - rewrite !Z.testbit_even_0. reflexivity.
  - replace n with (Z.succ (n - 1)) by lia.
    rewrite !Z.testbit_even_succ, Z.testbit_odd_succ, Z.land_spec by lia.
    reflexivity.
Qed.

Lemma land_succ_double_double (x : Z) : Z.land (2 * x + 1) (2 * x) = 2 * x.
Proof.
  apply Z.bits_inj'. intros n Hn. rewrite Z.land_spec.
  destruct (Z.eq_dec n 0) as [-> | Hn0].
  - rewrite Z.testbit_odd_0, Z.testbit_even_0. reflexivity.
  - replace n with (Z.succ (n - 1)) by lia.
    rewrite Z.testbit_odd_succ, !Z.testbit_even_succ by lia.
    apply andb_diag.
Qed.

(** The test of [New]: [x & (x-1) == 0] holds of a positive [x] exactly when
    [x] is a power of two. *)
Lemma land_pred_power_of_two (p : positive) :
  Z.land (Zpos p) (Zpos p - 1) = 0 <-> exists k, 0 <= k /\ Zpos p = 2 ^ k.
Proof.
  induction p as [q IH | q IH |].
  - replace (Zpos q~1 - 1) with (2 * Zpos q) by lia.
    replace (Zpos q~1) with (2 * Zpos q + 1) by lia.
    rewrite land_succ_double_double. split; [lia |].
    intros (k & Hk & E). exfalso.
    destruct (Z.eq_dec k 0) as [-> | Hk0]; [simpl in E; lia |].
    replace k with (Z.succ (k - 1)) in E by lia.
    rewrite Z.pow_succ_r in E by lia. lia.
  - replace (Zpos q~0 - 1) with (2 * (Zpos q - 1) + 1) by lia.
    replace (Zpos q~0) with (2 * Zpos q) by lia.
    rewrite land_double_succ_double. split.
    + intros E. destruct IH as [IH _].
      destruct IH as (k & Hk & Ek); [lia |].
      exists (Z.succ k). split; [lia |]. rewrite Z.pow_succ_r by lia. lia.
    + intros (k & Hk & E).
      destruct (Z.eq_dec k 0) as [-> | Hk0]; [simpl in E; lia |].
      replace k with (Z.succ (k - 1)) in E by lia.
      rewrite Z.pow_succ_r in E by lia.
      destruct IH as [_ IH]. rewrite IH; [lia |].
      exists (k - 1). split; lia.
  - split; [| reflexivity]. intros _. exists 0. split; [lia | reflexivity].
Qed.

Lemma power_of_two_test (n : Z) :
  0 < n < 2 ^ 64 ->
  (Z.land n (uint (n - 1)) =? 0) = true <-> exists k, 0 <= k < 64 /\ n = 2 ^ k.
Proof.
  intros Hn. unfold uint, uint_bits. rewrite Z.mod_small by lia.
  rewrite Z.eqb_eq. destruct n as [| p | p]; try lia.
  rewrite land_pred_power_of_two. split; intros (k & Hk & E); exists k.
  - split; [| exact E]. split; [lia |].
    destruct (Z.lt_ge_cases k 64) as [Hlt | Hge]; [exact Hlt |].
    pose proof (Z.pow_le_mono_r 2 64 k ltac:(lia) Hge). lia.
  - split; [lia | exact E].
Qed.

(** ** rho *)

(** With [d] positions left to scan, the loop returns the position of the
    leftmost set bit when one of the top [d] bits of [w] is set, and
    [max + 1] when none is. *)
Lemma rho_loop_scan (d : nat) :
  forall (fuel : nat) (w r max : Z),
    0 <= w < 2 ^ 32 -> 1 <= r -> r + Z.of_nat d = max + 1 -> max <= 32 ->
    (d < fuel)%nat ->
    rho_loop fuel w max r =
    Done (u8 (if w <? 2 ^ (32 - Z.of_nat d) then max + 1 else r + 31 - Z.log2 w)).
Proof.
  induction d as [| d IH]; intros fuel w r max Hw Hr Hd Hmax Hfuel;
    destruct fuel as [| fuel]; try lia; cbn [rho_loop].
  - replace (r <=? max) with false by (symmetry; apply Z.leb_gt; lia).
    rewrite andb_false_r.
    replace (w <? 2 ^ (32 - Z.of_nat 0)) with true
      by (symmetry; apply Z.ltb_lt; change (32 - Z.of_nat 0) with 32; lia).
    do 2 f_equal. lia.
  - rewrite land_top_bit by exact Hw.
    replace (r <=? max) with true by (symmetry; apply Z.leb_le; lia).
    rewrite andb_true_r.
    assert (Hpow : 2 ^ (32 - Z.of_nat d) = 2 * 2 ^ (32 - Z.of_nat (S d))).
    { rewrite <- Z.pow_succ_r by lia. f_equal. lia. }
    assert (Hle : 2 ^ (32 - Z.of_nat (S d)) <= 2 ^ 31)
      by (apply Z.pow_le_mono_r; lia).
    assert (Hpos : 0 < 2 ^ (32 - Z.of_nat (S d)))
      by (apply Z.pow_pos_nonneg; lia).
    destruct (Z.ltb_spec w (2 ^ 31)) as [Hlt | Hge].
    + rewrite shl32_1 by lia.
      unfold u32 at 1. rewrite (Z.mod_small (r + 1)) by lia.
      rewrite (IH fuel (2 * w) (r + 1) max) by lia.
      rewrite Hpow. do 2 f_equal.
      destruct (Z.ltb_spec w (2 ^ (32 - Z.of_nat (S d)))) as [H1 | H1].
      * replace (2 * w <? 2 * 2 ^ (32 - Z.of_nat (S d))) with true
          by (symmetry; apply Z.ltb_lt; lia).
        reflexivity.
      * replace (2 * w <? 2 * 2 ^ (32 - Z.of_nat (S d))) with false
          by (symmetry; apply Z.ltb_ge; lia).
        rewrite Z.log2_double by lia. lia.
    + replace (w <? 2 ^ (32 - Z.of_nat (S d))) with false
        by (symmetry; apply Z.ltb_ge; lia).
      do 2 f_equal.
      rewrite (Z.log2_unique w 31); lia.
Qed.

Lemma shl32_remaining_bits (val k : Z) :
  0 <= val < 2 ^ 32 -> 0 <= k <= 32 ->
  shl32 val k = (val mod 2 ^ (32 - k)) * 2 ^ k.
Proof.
  intros Hval Hk. unfold shl32, u32.
  destruct (Z.ltb_spec k 32) as [Hlt | Hge].
  - rewrite Z.shiftl_mul_pow2 by lia.
    replace (2 ^ 32) with (2 ^ (32 - k) * 2 ^ k)
      by (rewrite <- Z.pow_add_r by lia; f_equal; lia).
    apply Z.mul_mod_distr_r.
    + apply Z.pow_nonzero; lia.
    + apply Z.pow_nonzero; lia.
  - replace k with 32 by lia. change (2 ^ (32 - 32)) with 1.
    rewrite Z.mod_1_r. reflexivity.
Qed.

Lemma rank_range (val k : Z) :
  0 <= val < 2 ^ 32 -> 0 <= k <= 32 ->
  1 <= rank (shl32 val k) (32 - k) <= 32 - k + 1.
Proof.
  intros Hval Hk. rewrite shl32_remaining_bits by assumption.
  unfold rank. set (low := val mod 2 ^ (32 - k)).
  assert (Hlow : 0 <= low < 2 ^ (32 - k))
    by (apply Z.mod_pos_bound, Z.pow_pos_nonneg; lia).
  assert (Hk2 : 0 < 2 ^ k) by (apply Z.pow_pos_nonneg; lia).
  destruct (Z.eqb_spec (low * 2 ^ k) 0) as [E | NE]; [lia |].
  assert (0 < low) by nia.
  rewrite Z.log2_mul_pow2 by lia.
  assert (Z.log2 low < 32 - k) by (apply Z.log2_lt_pow2; lia).
  pose proof (Z.log2_nonneg low). lia.
Qed.

Lemma rho_rank (fuel : nat) (val k : Z) :
  0 <= val < 2 ^ 32 -> 0 <= k <= 32 -> (32 < fuel)%nat ->
  rho fuel (shl32 val k) (32 - k) = Done (rank (shl32 val k) (32 - k)).
Proof.
  intros Hval Hk Hfuel.
  pose proof (rank_range val k Hval Hk) as Hrank.
  assert (Hw : shl32 val k = (val mod 2 ^ (32 - k)) * 2 ^ k)
    by (apply shl32_remaining_bits; assumption).
  assert (Hlow : 0 <= val mod 2 ^ (32 - k) < 2 ^ (32 - k))
    by (apply Z.mod_pos_bound, Z.pow_pos_nonneg; lia).
  assert (Hk2 : 0 < 2 ^ k) by (apply Z.pow_pos_nonneg; lia).
  assert (Hsplit : 2 ^ (32 - k) * 2 ^ k = 2 ^ 32)
    by (rewrite <- Z.pow_add_r by lia; f_equal; lia).
  assert (Hrange : 0 <= shl32 val k < 2 ^ 32) by (rewrite Hw; nia).
  unfold rho.
  rewrite (rho_loop_scan (Z.to_nat (32 - k)) fuel _ 1 (32 - k)) by lia.
  rewrite Z2Nat.id by lia. replace (32 - (32 - k)) with k by lia.
  unfold rank in *.
  destruct (Z.ltb_spec (shl32 val k) (2 ^ k)) as [Hlt | Hge];
    destruct (Z.eqb_spec (shl32 val k) 0) as [E0 | NE0].
  - f_equal. unfold u8. apply Z.mod_small. lia.
  - exfalso. rewrite Hw in Hlt, NE0.
    assert (val mod 2 ^ (32 - k) < 1) by nia. nia.
  - lia.
  - f_equal. unfold u8. replace (1 + 31 - Z.log2 (shl32 val k))
      with (32 - Z.log2 (shl32 val k)) by lia.
    apply Z.mod_small. lia.
Qed.

(** A loop whose bound is the largest [uint32] never ends on a zero word. *)
Lemma rho_loop_zero_unbounded (fuel : nat) :
  forall r, 0 <= r < 2 ^ 32 -> rho_loop fuel 0 (2 ^ 32 - 1) r = Timeout.
Proof.
  induction fuel as [| fuel IH]; intros r Hr; cbn [rho_loop]; [reflexivity |].
  change (Z.land 0 0x80000000 =? 0) with true.
  replace (r <=? 2 ^ 32 - 1) with true by (symmetry; apply Z.leb_le; lia).
  change (shl32 0 1) with 0. cbn [andb].
  apply IH. unfold u32. apply Z.mod_pos_bound. lia.
Qed.

Lemma Add_timeout (fuel : nat) (h : HyperLogLog) (val : Z) :
  rho fuel (shl32 val (b h)) (u32 (32 - b h)) = Timeout ->
  Add fuel h val = Timeout.
Proof. unfold Add. intros ->. reflexivity. Qed.

(** ** Construction *)

(** On the powers of two that fit a [uint], the floating-point computation
    of [New] yields the exponent: [float64] holds the power exactly,
    [math.Log2] is exact on it, and [math.Ceil] leaves it alone. *)
Lemma index_bits_power_of_two (T : Target) (k : Z) :
  0 <= k < 64 -> index_bits T (2 ^ k) = k.
Proof.
  intros Hk.
  assert (E : exists n, (n < 64)%nat /\ k = Z.of_nat n)
    by (exists (Z.to_nat k); lia).
  destruct E as (n & Hn & ->). clear Hk.
  do 64 (destruct n as [| n]; [vm_compute; reflexivity |]).
  lia.
Qed.

Lemma New_power_of_two (T : Target) (k : Z) :
  0 <= k < 64 ->
  New T (2 ^ k) =
  inl (mkHyperLogLog (2 ^ k) k (get_alpha (2 ^ k)) (replicate (Z.to_nat (2 ^ k)) 0)).
Proof.
  intros Hk. unfold New.
  assert (Hn : 0 < 2 ^ k < 2 ^ 64).
  { split; [apply Z.pow_pos_nonneg; lia | apply Z.pow_lt_mono_r; lia]. }
  destruct (power_of_two_test (2 ^ k) Hn) as [_ Htest].
  rewrite Htest by (exists k; split; [lia | reflexivity]).
  cbn [negb]. rewrite index_bits_power_of_two by exact Hk.
  reflexivity.
Qed.

Lemma New_not_power_of_two (T : Target) (n : Z) :
  0 < n < 2 ^ 64 -> ~ (exists k, 0 <= k /\ n = 2 ^ k) ->
  New T n = inr (not_power_of_two_error n).
Proof.
  intros Hn Hnot. unfold New.
  destruct (Z.land n (uint (n - 1)) =? 0) eqn:E; [| reflexivity].
  exfalso. apply Hnot.
  destruct (power_of_two_test n Hn) as [Htest _].
  destruct (Htest E) as (k & Hk & ->). exists k. split; [lia | reflexivity].
Qed.

Lemma valid_fresh (k : Z) (a : float) :
  0 <= k < 64 ->
  valid (mkHyperLogLog (2 ^ k) k a (replicate (Z.to_nat (2 ^ k)) 0)).
Proof.
  intros Hk. split; cbn [m b registers].
  - reflexivity.
  - exact Hk.
  - unfold length_invariant; cbn [m registers]. rewrite length_replicate.
    apply Z2Nat.id. apply Z.pow_nonneg. lia.
  - apply Forall_replicate. unfold byte. lia.
Qed.



(** C10.  [New(0)] returns an estimator and no error: [0 & (0-1)] is 0, so
    the power-of-two test lets 0 through, and the register array is empty.
    The index width is then the conversion of minus infinity to [uint32],
    which Go leaves to the implementation. *)
Theorem New_zero_registers (T : Target) :
  Z.land 0 (uint (0 - 1)) = 0
  /\ New T 0 =
     inl (mkHyperLogLog 0 (indefinite32 T neg_infinity mod 2 ^ 32) 0%float []).
Proof. split; reflexivity. Qed.

(** ** Add *)

(** What [Add] returns on an estimator with at most 32 index bits and at
    least [2^b] registers. *)
Lemma Add_returns (fuel : nat) (h : HyperLogLog) (val : Z) :
  0 <= b h <= 32 -> 2 ^ b h <= Z.of_nat (length (registers h)) ->
  0 <= val < 2 ^ 32 -> (33 <= fuel)%nat ->
  let j := Z.shiftr val (32 - b h) in
  let r := rank (shl32 val (b h)) (32 - b h) in
  0 <= j < 2 ^ b h
  /\ exists old,
       registers h !! Z.to_nat j = Some old
       /\ Add fuel h val =
          Done (set_registers h (<[Z.to_nat j := Z.max old r]> (registers h))).
Proof.
  intros Hk Hlen Hval Hfuel j r.
  assert (Hj : 0 <= j < 2 ^ b h).
  { unfold j. rewrite Z.shiftr_div_pow2 by lia.
    assert (0 < 2 ^ (32 - b h)) by (apply Z.pow_pos_nonneg; lia).
    split; [apply Z.div_pos; lia |].
    apply Z.div_lt_upper_bound; [lia |].
    rewrite <- Z.pow_add_r by lia. replace (32 - b h + b h) with 32 by lia. lia. }
  split; [exact Hj |].
  destruct (lookup_lt_is_Some_2 (registers h) (Z.to_nat j)) as [old Hold]; [lia |].
  exists old. split; [exact Hold |].
  unfold Add.
  replace (u32 (32 - b h)) with (32 - b h) by (unfold u32; rewrite Z.mod_small; lia).
  rewrite rho_rank by lia. fold r. cbn [mbind exec_bind].
  replace (shr32 val (32 - b h)) with j.
  2:{ unfold shr32, j. destruct (Z.ltb_spec (32 - b h) 32) as [Hlt | Hge];
        [reflexivity |].
      replace (32 - b h) with 32 by lia.
      rewrite Z.shiftr_div_pow2 by lia. apply Z.div_small. lia. }
  rewrite Hold. f_equal.
  destruct (Z.ltb_spec old r) as [Hlt | Hge].
  - rewrite Z.max_r by lia. reflexivity.
  - rewrite Z.max_l by lia. rewrite list_insert_id by exact Hold.
    destruct h; reflexivity.
Qed.

(** C1, as the code has it.  On an estimator of the data model whose index
    width [b] is at most 32, [Add] of any 32-bit hash returns (33 units of
    fuel are enough for the loop of [rho]): the register index is
    [j = hash >> (32 - b)], below [m]; the rank [r] is the position of the
    leftmost set bit of the low [32 - b] bits of the hash shifted to the top of
    a 32-bit word, between 1 and [32 - b + 1]; register [j] becomes the
    maximum of its old value and [r], and nothing else changes. *)
Theorem Add_sets_register_to_max_rank (fuel : nat) (h : HyperLogLog) (val : Z) :
  valid h -> b h <= 32 -> 0 <= val < 2 ^ 32 -> (33 <= fuel)%nat ->
  let j := Z.shiftr val (32 - b h) in
  let w := (val mod 2 ^ (32 - b h)) * 2 ^ b h in
  let r := rank w (32 - b h) in
  shl32 val (b h) = w
  /\ 1 <= r <= 32 - b h + 1
  /\ 0 <= j < m h
  /\ exists old,
       registers h !! Z.to_nat j = Some old
       /\ Add fuel h val =
          Done (mkHyperLogLog (m h) (b h) (alpha h)
                  (<[Z.to_nat j := Z.max old r]> (registers h))).
Proof.
  intros [Hm Hb Hlen _] Hb32 Hval Hfuel j w r.
  unfold length_invariant in Hlen.
  assert (Hk : 0 <= b h <= 32) by lia.
  assert (Hw : shl32 val (b h) = w) by (apply shl32_remaining_bits; assumption).
  pose proof (rank_range val (b h) Hval Hk) as Hr. rewrite Hw in Hr.
  destruct (Add_returns fuel h val Hk ltac:(lia) Hval Hfuel) as (Hj & old & Hold & Hadd).
  rewrite Hw in Hadd.
  split; [exact Hw |]. split; [exact Hr |]. split; [rewrite Hm; exact Hj |].
  exists old. split; [exact Hold | exact Hadd].
Qed.

Lemma Add_sets_register_to_max_rank_witness :
  Add 33 (mkHyperLogLog 16 4 0.673 (replicate 16 0)) 0x10000001 =
  Done (mkHyperLogLog 16 4 0.673 (0 :: 28 :: replicate 14 0)).
Proof.
  assert (Hv : valid (mkHyperLogLog 16 4 0.673 (replicate 16 0)))
    by exact (valid_fresh 4 0.673 ltac:(lia)).
  destruct (Add_sets_register_to_max_rank 33
              (mkHyperLogLog 16 4 0.673 (replicate 16 0)) 0x10000001
              Hv ltac:(simpl; lia) ltac:(lia) ltac:(lia))
    as (_ & _ & _ & old & Hold & Hadd).
  rewrite Hadd. injection Hold as <-. reflexivity.
Defined.

Lemma Add_without_registers (fuel : nat) (h h' : HyperLogLog) (val : Z) :
  registers h = [] -> Add fuel h val <> Done h'.
Proof.
  intros Hregs. unfold Add. rewrite Hregs.
  destruct (rho fuel (shl32 val (b h)) (u32 (32 - b h))) as [r | msg |];
    cbn [mbind exec_bind]; discriminate.
Qed.

(** C1 as stated fails on a 64-bit target: [New(1 << 33)] returns an
    estimator of the data model with [b = 33]; on it [32 - b] wraps to the
    largest [uint32], the hash shifted left by 33 is 0, and the loop of [rho]
    never ends, so [Add(0)] does not return.  And on the estimator that
    [New(0)] returns, which has no register, [Add] of any hash never returns
    normally: indexing the empty array panics. *)
Lemma Add_fails_outside_the_data_model :
  New zero_target (2 ^ 33) = inl estimator_2_33
  /\ valid estimator_2_33
  /\ ~ terminates (fun fuel => Add fuel estimator_2_33 0)
  /\ (forall T fuel val,
        exists h0, New T 0 = inl h0 /\ forall h', Add fuel h0 val <> Done h').
Proof.
  split; [exact (New_power_of_two zero_target 33 ltac:(lia)) |].
  split; [exact (valid_fresh 33 _ ltac:(unfold uint_bits; lia)) |].
  split.
  - intros [fuel Hfuel]. apply Hfuel. apply Add_timeout.
    change (b estimator_2_33) with 33.
    change (u32 (32 - 33)) with (2 ^ 32 - 1).
    change (shl32 0 33) with 0.
    apply rho_loop_zero_unbounded. lia.
  - intros T fuel val. eexists. split; [reflexivity |].
    intros h'. apply Add_without_registers. reflexivity.
Qed.

(** X1.  Adding the same hash again changes nothing: the register already holds
    a value that is at least the rank of the hash. *)
Theorem Add_idempotent (fuel : nat) (h h' : HyperLogLog) (val : Z) :
  valid h -> b h <= 32 -> 0 <= val < 2 ^ 32 -> (33 <= fuel)%nat ->
  Add fuel h val = Done h' -> Add fuel h' val = Done h'.
Proof.
  intros [Hm Hb Hlen _] Hb32 Hval Hfuel Hadd.
  unfold length_invariant in Hlen.
  assert (Hk : 0 <= b h <= 32) by lia.
  destruct (Add_returns fuel h val Hk ltac:(lia) Hval Hfuel) as (Hj & old & Hold & E).
  rewrite E in Hadd. injection Hadd as <-.
  set (j := Z.to_nat (Z.shiftr val (32 - b h))) in *.
  set (r := rank (shl32 val (b h)) (32 - b h)) in *.
  destruct (Add_returns fuel (set_registers h (<[j := Z.max old r]> (registers h))) val)
    as (_ & old' & Hold' & E'); cbn [set_registers b registers]; try assumption.
  { rewrite length_insert. lia. }
  cbn [set_registers b registers] in Hold', E'. fold j r in Hold', E'.
  rewrite list_lookup_insert_eq in Hold' by (apply lookup_lt_Some in Hold; exact Hold).
  injection Hold' as <-.
  rewrite E'. unfold set_registers. cbn [m b alpha registers].
  rewrite list_insert_insert_eq. do 3 f_equal. lia.
Qed.

Lemma Add_idempotent_witness :
  Add 33 (mkHyperLogLog 16 4 0.673 (0 :: 28 :: replicate 14 0)) 0x10000001 =
  Done (mkHyperLogLog 16 4 0.673 (0 :: 28 :: replicate 14 0)).
Proof.
  apply (Add_idempotent 33 (mkHyperLogLog 16 4 0.673 (replicate 16 0))).
  - exact (valid_fresh 4 0.673 ltac:(lia)).
  - simpl. lia.
  - lia.
  - lia.
  - vm_compute. reflexivity.
Defined.

(** X2.  Two hashes can be added in either order: the registers end up the
    same. *)
Theorem Add_commutes (fuel : nat) (h h1 h12 : HyperLogLog) (val1 val2 : Z) :
  valid h -> b h <= 32 -> 0 <= val1 < 2 ^ 32 -> 0 <= val2 < 2 ^ 32 ->
  (33 <= fuel)%nat ->
  Add fuel h val1 = Done h1 -> Add fuel h1 val2 = Done h12 ->
  exists h2, Add fuel h val2 = Done h2 /\ Add fuel h2 val1 = Done h12.
Proof.
  intros [Hm Hb Hlen _] Hb32 Hval1 Hval2 Hfuel Hadd1 Hadd12.
  unfold length_invariant in Hlen.
  assert (Hk : 0 <= b h <= 32) by lia.
  destruct (Add_returns fuel h val1 Hk ltac:(lia) Hval1 Hfuel) as (Hj1 & o1 & Ho1 & E1).
  destruct (Add_returns fuel h val2 Hk ltac:(lia) Hval2 Hfuel) as (Hj2 & o2 & Ho2 & E2).
  set (j1 := Z.to_nat (Z.shiftr val1 (32 - b h))) in *.
  set (r1 := rank (shl32 val1 (b h)) (32 - b h)) in *.
  set (j2 := Z.to_nat (Z.shiftr val2 (32 - b h))) in *.
  set (r2 := rank (shl32 val2 (b h)) (32 - b h)) in *.
  pose proof (lookup_lt_Some _ _ _ Ho1) as Hlt1.
  pose proof (lookup_lt_Some _ _ _ Ho2) as Hlt2.
  rewrite E1 in Hadd1. injection Hadd1 as <-.
  destruct (Add_returns fuel (set_registers h (<[j1 := Z.max o1 r1]> (registers h))) val2)
    as (_ & o2' & Ho2' & E12); cbn [set_registers b registers]; try assumption.
  { rewrite length_insert. lia. }
  cbn [set_registers b registers] in Ho2', E12. fold j2 r2 in Ho2', E12.
  rewrite E12 in Hadd12. injection Hadd12 as <-.
  eexists. split; [exact E2 |].
  destruct (Add_returns fuel (set_registers h (<[j2 := Z.max o2 r2]> (registers h))) val1)
    as (_ & o1' & Ho1' & E21); cbn [set_registers b registers]; try assumption.
  { rewrite length_insert. lia. }
  cbn [set_registers b registers] in Ho1', E21. fold j1 r1 in Ho1', E21.
  rewrite E21. unfold set_registers. cbn [m b alpha registers]. do 2 f_equal.
  destruct (Nat.eq_dec j1 j2) as [Ej | NEj].
  - rewrite <- Ej in *.
    rewrite list_lookup_insert_eq in Ho2', Ho1' by exact Hlt1.
    injection Ho2' as <-. injection Ho1' as <-.
    assert (o2 = o1) by congruence. subst o2.
    rewrite !list_insert_insert_eq. f_equal. lia.
  - rewrite list_lookup_insert_ne in Ho2' by exact NEj.
    rewrite list_lookup_insert_ne in Ho1' by (intros E; apply NEj; symmetry; exact E).
    assert (o2' = o2) by congruence. assert (o1' = o1) by congruence. subst o2' o1'.
    apply list_insert_insert_ne. exact NEj.
Qed.

Lemma Add_commutes_witness :
  exists h2,
    Add 33 (mkHyperLogLog 16 4 0.673 (replicate 16 0)) 0x20000001 = Done h2
    /\ Add 33 h2 0x10000001 =
       Done (mkHyperLogLog 16 4 0.673 (0 :: 28 :: 28 :: replicate 13 0)).
Proof.
  apply (Add_commutes 33 (mkHyperLogLog 16 4 0.673 (replicate 16 0))
           (mkHyperLogLog 16 4 0.673 (0 :: 28 :: replicate 14 0))).
  - exact (valid_fresh 4 0.673 ltac:(lia)).
  - simpl. lia.
  - lia.
  - lia.
  - lia.
  - vm_compute. reflexivity.
  - vm_compute. reflexivity.
Defined.

(** ** Merge *)

Lemma merge_loop_middle (regs2 : list Z) :
  forall pre mid post : list Z,
    length mid = length regs2 ->
    merge_loop (length pre) regs2 (pre ++ mid ++ post) =
    Done (pre ++ zip_with Z.max mid regs2 ++ post).
Proof.
  induction regs2 as [| r rest IH]; intros pre mid post Hlen;
    destruct mid as [| x mid]; try discriminate Hlen; cbn [merge_loop].
  - reflexivity.
  - cbn [app]. rewrite list_lookup_middle by reflexivity.
    assert (E : (if x <? r then <[length pre := r]> (pre ++ x :: mid ++ post)
                 else pre ++ x :: mid ++ post)
                = (pre ++ [Z.max x r]) ++ mid ++ post).
    { rewrite <- app_assoc. cbn [app].
      destruct (Z.ltb_spec x r) as [Hlt | Hge].
      - rewrite Z.max_r by lia.
        rewrite insert_app_r_alt by lia.
        rewrite Nat.sub_diag. reflexivity.
      - rewrite Z.max_l by lia. reflexivity. }
    rewrite E.
    replace (S (length pre)) with (length (pre ++ [Z.max x r]))
      by (rewrite length_app; cbn [length]; lia).
    rewrite IH by (cbn [length] in Hlen; lia).
    rewrite <- app_assoc. reflexivity.
Qed.

Lemma merge_loop_same_length (regs1 regs2 : list Z) :
  length regs1 = length regs2 ->
  merge_loop 0 regs2 regs1 = Done (zip_with Z.max regs1 regs2).
Proof.
  intros Hlen.
  pose proof (merge_loop_middle regs2 [] regs1 [] Hlen) as E.
  cbn [length app] in E. rewrite !app_nil_r in E. exact E.
Qed.

Lemma merge_loop_length (regs2 : list Z) :
  forall (j : nat) (regs1 out : list Z),
    merge_loop j regs2 regs1 = Done out -> length out = length regs1.
Proof.
  induction regs2 as [| r rest IH]; intros j regs1 out; cbn [merge_loop].
  - intros [= <-]. reflexivity.
  - destruct (regs1 !! j) as [old |]; [| discriminate].
    intros E. apply IH in E. rewrite E.
    destruct (old <? r); [apply length_insert | reflexivity].
Qed.

Lemma zip_with_max_comm (l1 l2 : list Z) :
  zip_with Z.max l1 l2 = zip_with Z.max l2 l1.
Proof.
  revert l2. induction l1 as [| x l1 IH]; intros [| y l2]; cbn [zip_with];
    try reflexivity.
  rewrite Z.max_comm, IH. reflexivity.
Qed.

Lemma zip_with_max_diag (l : list Z) : zip_with Z.max l l = l.
Proof.
  induction l as [| x l IH]; cbn [zip_with]; [reflexivity |].
  rewrite Z.max_id, IH. reflexivity.
Qed.

Lemma Merge_same_length (h1 h2 : HyperLogLog) :
  m h1 = m h2 -> length (registers h1) = length (registers h2) ->
  Merge h1 h2 =
  Done (set_registers h1 (zip_with Z.max (registers h1) (registers h2)), None).
Proof.
  intros Hm Hlen. unfold Merge.
  replace (m h1 =? m h2) with true by (symmetry; apply Z.eqb_eq; exact Hm).
  cbn [negb]. rewrite merge_loop_same_length by exact Hlen. reflexivity.
Qed.



(** C6.  For two estimators with different register counts, [Merge] and
    [Intersect] both return the error whose text names the two counts, and
    [Merge] hands the receiver back as it was. *)
Theorem mismatch_is_rejected (T : Target) (h1 h2 : HyperLogLog) :
  m h1 <> m h2 ->
  Merge h1 h2 = Done (h1, Some (mismatch_error (m h1) (m h2)))
  /\ Intersect T h1 h2 = Done (0, Some (mismatch_error (m h1) (m h2)))
  /\ mismatch_error (m h1) (m h2) =
     ("number of registers doesn't match: " ++ dec (m h1) ++ " != " ++ dec (m h2))%string.
Proof.
  intros Hm. unfold Merge, Intersect.
  replace (m h1 =? m h2) with false by (symmetry; apply Z.eqb_neq; exact Hm).
  repeat split.
Qed.

Lemma mismatch_is_rejected_witness :
  Merge (mkHyperLogLog 16 4 0.673 (replicate 16 5))
        (mkHyperLogLog 32 5 0.697 (replicate 32 9)) =
  Done (mkHyperLogLog 16 4 0.673 (replicate 16 5),
        Some "number of registers doesn't match: 16 != 32"%string).
Proof.
  destruct (mismatch_is_rejected zero_target
              (mkHyperLogLog 16 4 0.673 (replicate 16 5))
              (mkHyperLogLog 32 5 0.697 (replicate 32 9))
              ltac:(discriminate)) as [E _].
  rewrite E. reflexivity.
Defined.

(** ** Sums of ones in binary64 *)

Lemma pos_iter_nat {A : Type} (f : A -> A) (x : A) (p : positive) :
  Pos.iter f x p = Nat.iter (Pos.to_nat p) f x.
Proof.
  revert x. induction p as [| p IH] using Pos.peano_ind; intros x.
  - reflexivity.
  - rewrite Pos.iter_succ, Pos2Nat.inj_succ, IH. reflexivity.
Qed.

Lemma iter_pos_nat {A : Type} (f : A -> A) (p : positive) :
  forall x, SpecFloat.iter_pos f p x = Nat.iter (Pos.to_nat p) f x.
Proof.
  induction p as [p IH | p IH |]; intros x; cbn [SpecFloat.iter_pos].
  - rewrite !IH, Pos2Nat.inj_xI.
    replace (S (2 * Pos.to_nat p))%nat with (Pos.to_nat p + (Pos.to_nat p + 1))%nat by lia.
    rewrite !Nat.iter_add. reflexivity.
  - rewrite !IH, Pos2Nat.inj_xO.
    replace (2 * Pos.to_nat p)%nat with (Pos.to_nat p + Pos.to_nat p)%nat by lia.
    rewrite Nat.iter_add. reflexivity.
  - reflexivity.
Qed.

Lemma shift_pos_nat_Z (q : positive) (n : nat) :
  Zpos (shift_pos_nat q n) = Zpos q * 2 ^ Z.of_nat n.
Proof.
  unfold shift_pos_nat. induction n as [| n IH].
  - cbn. lia.
  - change (Nat.iter (S n) xO q) with (xO (Nat.iter n xO q)).
    rewrite Pos2Z.inj_xO, IH, Nat2Z.inj_succ, Z.pow_succ_r by lia. lia.
Qed.

Lemma digits_shift_pos_nat (q : positive) (n : nat) :
  Zpos (digits2_pos (shift_pos_nat q n)) = Zpos (digits2_pos q) + Z.of_nat n.
Proof.
  unfold shift_pos_nat. induction n as [| n IH].
  - cbn. lia.
  - change (Nat.iter (S n) xO q) with (xO (Nat.iter n xO q)).
    cbn [digits2_pos]. rewrite Pos2Z.inj_succ, IH. lia.
Qed.

Lemma shr_shift_pos_nat (n : nat) :
  forall q : positive,
    Nat.iter n shr_1 (Build_shr_record (Zpos (shift_pos_nat q n)) false false) =
    Build_shr_record (Zpos q) false false.
Proof.
  induction n as [| n IH]; intros q; [reflexivity |].
  rewrite Nat.iter_succ_r. unfold shift_pos_nat.
  change (Nat.iter (S n) xO q) with (xO (Nat.iter n xO q)).
  cbn [shr_1 orb]. apply IH.
Qed.

Lemma fexp_value (x : Z) : -1021 <= x -> fexp prec emax x = x - 53.
Proof. intros Hx. unfold fexp, SpecFloat.emin, prec, emax. lia. Qed.

Lemma shift_pos_nat_add (q : positive) (n k : nat) :
  shift_pos_nat (shift_pos_nat q k) n = shift_pos_nat q (n + k).
Proof. unfold shift_pos_nat. rewrite Nat.iter_add. reflexivity. Qed.

(** A mantissa [q * 2^t] of at least 53 digits whose low bits are all zero
    rounds without error to the 53-digit mantissa [q * 2^(53 - d)]. *)
Lemma binary_round_aux_exact (q : positive) (t : nat) (e : Z) :
  let d := Zpos (digits2_pos q) in
  d <= 53 -> 53 <= d + Z.of_nat t ->
  -1074 <= e + d + Z.of_nat t - 53 <= 971 ->
  binary_round_aux prec emax false (Zpos (shift_pos_nat q t)) e loc_Exact =
  S754_finite false (shift_pos_nat q (Z.to_nat (53 - d))) (e + d + Z.of_nat t - 53).
Proof.
  intros d Hd Ht HE. set (E := e + d + Z.of_nat t - 53) in *.
  set (q' := shift_pos_nat q (Z.to_nat (53 - d))).
  assert (Hq : shift_pos_nat q t = shift_pos_nat q' (Z.to_nat (E - e))).
  { unfold q'. rewrite shift_pos_nat_add. f_equal. unfold E. lia. }
  assert (Hdq' : Zpos (digits2_pos q') = 53).
  { unfold q'. rewrite digits_shift_pos_nat. fold d. lia. }
  unfold binary_round_aux, shr_fexp. cbn [Zdigits2 shr_record_of_loc].
  rewrite digits_shift_pos_nat. fold d.
  rewrite fexp_value by lia.
  replace (d + Z.of_nat t + e - 53) with E by (unfold E; lia).
  assert (Hshr : shr (Build_shr_record (Zpos (shift_pos_nat q t)) false false) e (E - e)
                 = (Build_shr_record (Zpos q') false false, E)).
  { unfold shr. destruct (E - e) as [| n | n] eqn:En.
    - rewrite Hq. cbn. f_equal. lia.
    - rewrite iter_pos_nat, Hq, Z2Nat.inj_pos, shr_shift_pos_nat. f_equal. lia.
    - unfold E in En. lia. }
  rewrite Hshr. cbn [shr_m loc_of_shr_record round_nearest_even Zdigits2].
  rewrite Hdq'. rewrite fexp_value by lia.
  replace (53 + E - 53 - E) with 0 by lia. cbn [shr shr_m].
  replace (E <=? emax - prec) with true
    by (symmetry; apply Z.leb_le; unfold emax, prec; lia).
  reflexivity.
Qed.

Lemma binary_round_shifted (q : positive) (s : nat) :
  Zpos (digits2_pos q) <= 53 ->
  binary_round prec emax false (shift_pos_nat q s) (- Z.of_nat s) = canonical q.
Proof.
  intros Hd. set (d := Zpos (digits2_pos q)) in *.
  unfold binary_round, shl_align. rewrite digits_shift_pos_nat. fold d.
  rewrite fexp_value by lia.
  destruct (d + Z.of_nat s + - Z.of_nat s - 53 - - Z.of_nat s) as [| n | n] eqn:En.
  - rewrite binary_round_aux_exact by (fold d; lia). fold d. unfold canonical. fold d.
    f_equal. lia.
  - rewrite binary_round_aux_exact by (fold d; lia). fold d. unfold canonical. fold d.
    f_equal. lia.
  - rewrite pos_iter_nat. fold (shift_pos_nat (shift_pos_nat q s) (Pos.to_nat n)).
    rewrite shift_pos_nat_add.
    rewrite binary_round_aux_exact by (fold d; lia). fold d. unfold canonical. fold d.
    f_equal. lia.
Qed.

Lemma of_int_canonical (q : positive) :
  Zpos (digits2_pos q) <= 53 -> Prim2SF (of_int (Zpos q)) = canonical q.
Proof.
  intros Hd. unfold of_int. cbn [binary_normalize].
  pose proof (binary_round_shifted q 0 Hd) as E.
  change (binary_round prec emax false q 0 = canonical q) in E. rewrite E.
  apply Prim2SF_SF2Prim.
  unfold canonical, valid_binary, bounded, canonical_mantissa.
  rewrite digits_shift_pos_nat, fexp_value by lia.
  apply andb_true_intro. split; [apply Z.eqb_eq; lia |].
  apply Z.leb_le. unfold emax, prec. lia.
Qed.

Lemma digits_bound (q : positive) :
  Zpos q < 2 ^ 53 -> Zpos (digits2_pos q) <= 53.
Proof.
  intros Hq.
  assert (Hlog : Zpos (digits2_pos q) = Z.log2 (Zpos q) + 1).
  { clear Hq. induction q as [q IH | q IH |]; cbn [digits2_pos].
    - rewrite Pos2Z.inj_succ, IH, Pos2Z.inj_xI, Z.log2_succ_double by lia. lia.
    - rewrite Pos2Z.inj_succ, IH, Pos2Z.inj_xO, Z.log2_double by lia. lia.
    - reflexivity. }
  rewrite Hlog. assert (Z.log2 (Zpos q) < 53) by (apply Z.log2_lt_pow2; lia). lia.
Qed.

(** Adding 1.0 to an integer below 2^53 - 1 is exact. *)
Lemma of_int_succ (k : Z) :
  0 <= k < 2 ^ 53 - 1 -> (of_int k + 1)%float = of_int (k + 1).
Proof.
  intros Hk. destruct k as [| q | q]; [reflexivity | | lia].
  apply Prim2SF_inj. rewrite add_spec.
  assert (Hsucc : Zpos q + 1 = Zpos (q + 1)) by lia. rewrite Hsucc.
  rewrite !of_int_canonical by (apply digits_bound; lia).
  change (Prim2SF 1) with (S754_finite false 4503599627370496 (-52)).
  pose proof (digits_bound q ltac:(lia)) as Hd.
  set (d := Zpos (digits2_pos q)) in *.
  unfold canonical at 1. fold d. unfold SF64add, SFadd.
  replace (Z.min (d - 53) (-52)) with (-52) by lia.
  assert (Hq : fst (shl_align (shift_pos_nat q (Z.to_nat (53 - d))) (d - 53) (-52))
               = shift_pos_nat q 52).
  { unfold shl_align. destruct (-52 - (d - 53)) as [| n | n] eqn:En.
    - cbn [fst]. f_equal. lia.
    - lia.
    - cbn [fst]. rewrite pos_iter_nat.
      fold (shift_pos_nat (shift_pos_nat q (Z.to_nat (53 - d))) (Pos.to_nat n)).
      rewrite shift_pos_nat_add. f_equal. lia. }
  rewrite Hq. cbn [shl_align Z.sub Z.add Z.opp Z.pos_sub fst cond_Zopp].
  replace (Zpos (shift_pos_nat q 52) + 4503599627370496)
    with (Zpos (shift_pos_nat (q + 1) 52))
    by (rewrite !shift_pos_nat_Z; lia).
  cbn [binary_normalize].
  apply (binary_round_shifted (q + 1) 52). apply digits_bound. lia.
Qed.

Lemma sum_of_ones (n : nat) :
  forall k : Z,
    0 <= k -> k + Z.of_nat n < 2 ^ 53 ->
    fold_left add (replicate n 1%float) (of_int k) = of_int (k + Z.of_nat n).
Proof.
  induction n as [| n IH]; intros k Hk Hn; cbn [replicate fold_left].
  - f_equal. lia.
  - rewrite of_int_succ by lia. rewrite IH by lia. f_equal. lia.
Qed.

(** ** Count *)

Lemma inverse_power_of_two (r : Z) :
  byte r -> (1.0 / Pow2 r)%float = Z.ldexp 1 (- r).
Proof.
  intros Hr. unfold byte in Hr.
  assert (E : exists n, (n < 256)%nat /\ r = Z.of_nat n)
    by (exists (Z.to_nat r); lia).
  destruct E as (n & Hn & ->). clear Hr.
  do 256 (destruct n as [| n]; [vm_compute; reflexivity |]).
  lia.
Qed.

Lemma sum_loop_harmonic (regs : list Z) :
  Forall byte regs ->
  forall acc : float,
    fold_left (fun sum val => (sum + 1.0 / Pow2 val)%float) regs acc =
    fold_left add (map (fun r => Z.ldexp 1 (- r)) regs) acc.
Proof.
  induction 1 as [| r regs Hr _ IH]; intros acc; cbn [fold_left map].
  - reflexivity.
  - rewrite IH, inverse_power_of_two by exact Hr. reflexivity.
Qed.

Lemma zero_loop_count (regs : list Z) :
  forall acc : Z,
    fold_left (fun v r => if r =? 0 then v + 1 else v) regs acc =
    acc + zero_registers regs.
Proof.
  unfold zero_registers.
  induction regs as [| r regs IH]; intros acc; cbn [fold_left].
  - cbn. lia.
  - rewrite IH. rewrite filter_cons.
    destruct (Z.eqb_spec r 0) as [-> | NE].
    + rewrite decide_True by reflexivity. cbn [length]. lia.
    + rewrite decide_False by exact NE. lia.
Qed.

Lemma to_unsigned_range (bits : Z) (indefinite : float -> Z) (f : float) :
  0 <= bits -> 0 <= to_unsigned bits indefinite f < 2 ^ bits.
Proof.
  intros Hbits. unfold to_unsigned.
  assert (Hmod : 0 <= indefinite f mod 2 ^ bits < 2 ^ bits)
    by (apply Z.mod_pos_bound, Z.pow_pos_nonneg; lia).
  destruct (truncate f) as [z |]; [| exact Hmod].
  destruct (Z.leb_spec 0 z); destruct (Z.ltb_spec z (2 ^ bits)); cbn [andb]; lia.
Qed.

Lemma Count_range (T : Target) (h : HyperLogLog) : 0 <= Count T h < 2 ^ 64.
Proof. unfold Count, to_uint64. apply to_unsigned_range. lia. Qed.

Lemma Count_corrected_estimate (T : Target) (h : HyperLogLog) :
  Forall byte (registers h) ->
  Count T h = to_uint64 T (corrected_estimate h).
Proof.
  intros Hbytes. unfold Count, corrected_estimate, raw_estimate, harmonic_sum.
  rewrite sum_loop_harmonic by exact Hbytes.
  rewrite zero_loop_count. cbn [Z.add].
  reflexivity.
Qed.

Lemma harmonic_sum_zeros (n : nat) :
  Z.of_nat n < 2 ^ 53 -> harmonic_sum (replicate n 0) = of_int (Z.of_nat n).
Proof.
  intros Hn. unfold harmonic_sum.
  replace (map (fun r => Z.ldexp 1 (- r)) (replicate n 0)) with (replicate n 1%float)
    by (induction n as [| n IH]; cbn [replicate map]; [| rewrite <- IH by lia];
        reflexivity).
  change 0%float with (of_int 0). apply sum_of_ones; lia.
Qed.

Lemma zero_registers_zeros (n : nat) : zero_registers (replicate n 0) = Z.of_nat n.
Proof.
  unfold zero_registers. f_equal.
  induction n as [| n IH]; [reflexivity |].
  cbn [replicate]. rewrite filter_cons, decide_True by reflexivity.
  cbn [length]. rewrite IH. reflexivity.
Qed.

(** The estimator [New] returns for [2^k] registers counts 0, for every [k]
    up to 52: the sum of the [2^k] ones is exact in binary64, and the rest is
    evaluated for each [k]. *)
Lemma Count_fresh (T : Target) (k : Z) :
  0 <= k <= 52 ->
  Count T (mkHyperLogLog (2 ^ k) k (get_alpha (2 ^ k)) (replicate (Z.to_nat (2 ^ k)) 0)) = 0.
Proof.
  intros Hk.
  assert (Hpow : 0 < 2 ^ k < 2 ^ 53).
  { split; [apply Z.pow_pos_nonneg; lia | apply Z.pow_lt_mono_r; lia]. }
  rewrite Count_corrected_estimate
    by (cbn [registers]; apply Forall_replicate; unfold byte; lia).
  unfold corrected_estimate, raw_estimate. cbn [m alpha registers].
  rewrite harmonic_sum_zeros, zero_registers_zeros by lia.
  rewrite Z2Nat.id by lia.
  assert (E : exists n, (n < 53)%nat /\ k = Z.of_nat n)
    by (exists (Z.to_nat k); lia).
  destruct E as (n & Hn & ->). clear Hk Hpow.
  do 53 (destruct n as [| n]; [vm_compute; reflexivity |]).
  lia.
Qed.



(** ** Intersect *)

Lemma zip_with_max_zeros (regs : list Z) (n : nat) :
  Forall byte regs -> length regs = n ->
  zip_with Z.max (replicate n 0) regs = regs.
Proof.
  intros Hbytes <-. induction Hbytes as [| r regs Hr _ IH]; cbn; [reflexivity |].
  unfold byte in Hr. rewrite IH. f_equal. lia.
Qed.



(** ** Count of a merge *)

Lemma zip_with_max_ge_l (l1 l2 : list Z) :
  length l1 = length l2 -> Forall2 Z.le l1 (zip_with Z.max l1 l2).
Proof.
  revert l2. induction l1 as [| x l1 IH]; intros [| y l2] Hlen;
    try discriminate Hlen; cbn [zip_with]; constructor.
  - lia.
  - apply IH. cbn [length] in Hlen. lia.
Qed.

Lemma zero_registers_cons (r : Z) (regs : list Z) :
  zero_registers (r :: regs) = (if r =? 0 then 1 else 0) + zero_registers regs.
Proof.
  unfold zero_registers. rewrite filter_cons.
  destruct (Z.eqb_spec r 0) as [-> | NE].
  - rewrite decide_True by reflexivity. cbn [length]. lia.
  - rewrite decide_False by exact NE. lia.
Qed.

Lemma zero_registers_max_le (l1 : list Z) :
  forall l2 : list Z,
    Forall byte l1 -> Forall byte l2 ->
    zero_registers (zip_with Z.max l1 l2) <= zero_registers l1.
Proof.
  induction l1 as [| x l1 IH]; intros [| y l2] H1 H2; cbn [zip_with];
    try (unfold zero_registers; cbn; lia).
  inversion H1 as [| ? ? Hx H1']; subst. inversion H2 as [| ? ? Hy H2']; subst.
  rewrite !zero_registers_cons. specialize (IH l2 H1' H2').
  unfold byte in Hx, Hy.
  destruct (Z.eqb_spec (Z.max x y) 0); destruct (Z.eqb_spec x 0); lia.
Qed.

(** C7, as the code has it.  For two estimators of the data model with the
    same register count, [Merge] leaves in the receiver a register array
    that is, register by register, at least each of the two arrays, and that
    has no more zero registers than either.  The count itself can drop when
    the last zero register is filled, where [Count] leaves the small-range
    correction for the raw estimate. *)
Theorem Merge_never_lowers_a_register (h1 h2 : HyperLogLog) :
  valid h1 -> valid h2 -> m h1 = m h2 ->
  let union := zip_with Z.max (registers h1) (registers h2) in
  Merge h1 h2 = Done (set_registers h1 union, None)
  /\ Forall2 Z.le (registers h1) union
  /\ Forall2 Z.le (registers h2) union
  /\ zero_registers union <= zero_registers (registers h1)
  /\ zero_registers union <= zero_registers (registers h2).
Proof.
  intros [_ _ Hlen1 Hbytes1] [_ _ Hlen2 Hbytes2] Hm union.
  unfold length_invariant in Hlen1, Hlen2.
  assert (Hlen : length (registers h1) = length (registers h2)) by lia.
  split; [apply Merge_same_length; assumption |].
  split; [apply zip_with_max_ge_l; exact Hlen |].
  split; [unfold union; rewrite zip_with_max_comm; apply zip_with_max_ge_l; lia |].
  split; [apply zero_registers_max_le; assumption |].
  unfold union. rewrite zip_with_max_comm. apply zero_registers_max_le; assumption.
Qed.

Lemma valid_estimator_A : valid estimator_A.
Proof.
  split; [reflexivity | unfold uint_bits; simpl; lia | reflexivity |].
  repeat constructor; unfold byte; lia.
Qed.

Lemma valid_estimator_B : valid estimator_B.
Proof.
  split; [reflexivity | unfold uint_bits; simpl; lia | reflexivity |].
  repeat constructor; unfold byte; lia.
Qed.

Lemma Merge_never_lowers_a_register_witness :
  Merge estimator_A estimator_B = Done (estimator_AB, None)
  /\ zero_registers (registers estimator_AB) <= zero_registers (registers estimator_A).
Proof.
  destruct (Merge_never_lowers_a_register estimator_A estimator_B
              valid_estimator_A valid_estimator_B eq_refl) as (E & _ & _ & Hz & _).
  split; [rewrite E; reflexivity | exact Hz].
Defined.

(** C7 as stated fails.  With 16 registers, adding fifteen hashes of rank 1
    to registers 1..15 gives an estimator that counts 44 (one register is
    still zero, so the small-range correction [16 * ln 16] applies); adding
    one hash of rank 1 to register 0 gives one that counts 1; their merge has
    no zero register left, keeps the raw estimate, and counts 21. *)
Lemma Count_of_merge_can_drop :
  New zero_target 16 = inl (mkHyperLogLog 16 4 0.673 (replicate 16 0))
  /\ Add_all 33 (mkHyperLogLog 16 4 0.673 (replicate 16 0)) hashes_A = Done estimator_A
  /\ Add_all 33 (mkHyperLogLog 16 4 0.673 (replicate 16 0)) hashes_B = Done estimator_B
  /\ valid estimator_A /\ valid estimator_B
  /\ Merge estimator_A estimator_B = Done (estimator_AB, None)
  /\ (forall T, Count T estimator_A = 44)
  /\ (forall T, Count T estimator_B = 1)
  /\ (forall T, Count T estimator_AB = 21)
  /\ ~ (forall T, Count T estimator_AB >= Z.max (Count T estimator_A) (Count T estimator_B)).
Proof.
  split; [exact (New_power_of_two zero_target 4 ltac:(lia)) |].
  split; [vm_compute; reflexivity |].
  split; [vm_compute; reflexivity |].
  split; [exact valid_estimator_A |].
  split; [exact valid_estimator_B |].
  split; [vm_compute; reflexivity |].
  assert (HA : forall T, Count T estimator_A = 44) by (intros T; vm_compute; reflexivity).
  assert (HB : forall T, Count T estimator_B = 1) by (intros T; vm_compute; reflexivity).
  assert (HAB : forall T, Count T estimator_AB = 21) by (intros T; vm_compute; reflexivity).
  split; [exact HA |]. split; [exact HB |]. split; [exact HAB |].
  intros H. specialize (H zero_target). rewrite HA, HB, HAB in H. lia.
Qed.

(** ** Unserialize and the length of the register array *)

Lemma Add_length (fuel : nat) (h h' : HyperLogLog) (val : Z) :
  Add fuel h val = Done h' ->
  m h' = m h /\ length (registers h') = length (registers h).
Proof.
  unfold Add.
  destruct (rho fuel (shl32 val (b h)) (u32 (32 - b h))) as [r | |];
    cbn [mbind exec_bind]; try discriminate.
  destruct (registers h !! Z.to_nat (shr32 val (u32 (32 - b h)))) as [old |];
    [| discriminate].
  intros [= <-]. destruct (old <? r); [| split; reflexivity].
  cbn [set_registers m registers]. rewrite length_insert. split; reflexivity.
Qed.

Lemma Merge_length (h1 h2 h1' : HyperLogLog) (e : option string) :
  Merge h1 h2 = Done (h1', e) ->
  m h1' = m h1 /\ length (registers h1') = length (registers h1).
Proof.
  unfold Merge. destruct (negb (m h1 =? m h2)).
  - intros [= <- _]. split; reflexivity.
  - destruct (merge_loop 0 (registers h2) (registers h1)) as [regs | |] eqn:E;
      cbn [mbind exec_bind]; try discriminate.
    intros [= <- _]. cbn [set_registers m registers].
    split; [reflexivity | exact (merge_loop_length _ _ _ _ E)].
Qed.

(** C8, as the code has it.  [len(registers) == registerCount] holds of
    every estimator [New] returns and after every [Reset]; [Add] and [Merge]
    keep it whenever they return; [Intersect] writes to a fresh estimator
    only; and [Unserialize] keeps it when the text is rejected, or when the
    decoded [R] has exactly [M] entries. *)
Theorem length_invariant_preserved :
  (forall T n h, 0 <= n -> New T n = inl h -> length_invariant h)
  /\ (forall h, 0 <= m h -> length_invariant (Reset h))
  /\ (forall fuel h val h',
        length_invariant h -> Add fuel h val = Done h' -> length_invariant h')
  /\ (forall h1 h2 h1' e,
        length_invariant h1 -> Merge h1 h2 = Done (h1', e) -> length_invariant h1')
  /\ (forall unmarshal h str,
        length_invariant h ->
        (forall d, unmarshal str = (d, None) -> Z.of_nat (length (R d)) = M d) ->
        length_invariant (Unserialize unmarshal h str).1).
Proof.
  unfold length_invariant.
  split; [| split; [| split; [| split]]].
  - intros T n h Hn. unfold New.
    destruct (negb (Z.land n (uint (n - 1)) =? 0)); [discriminate |].
    intros [= <-]. cbn [Reset set_registers m registers].
    rewrite length_replicate. lia.
  - intros h Hm. cbn [Reset set_registers m registers].
    rewrite length_replicate. lia.
  - intros fuel h val h' Hinv Hadd.
    destruct (Add_length _ _ _ _ Hadd) as [-> ->]. exact Hinv.
  - intros h1 h2 h1' e Hinv Hmerge.
    destruct (Merge_length _ _ _ _ Hmerge) as [-> ->]. exact Hinv.
  - intros unmarshal h str Hinv Hshape. unfold Unserialize.
    destruct (unmarshal str) as [d [err |]] eqn:E; cbn [fst]; [exact Hinv |].
    cbn [m registers]. rewrite length_map. apply Hshape. reflexivity.
Qed.

Lemma length_invariant_preserved_witness :
  length_invariant (Reset (mkHyperLogLog 4 2 0.5 [7]))
  /\ length_invariant
       (Unserialize unmarshal_samples (mkHyperLogLog 4 2 0.5 [0; 0; 0; 0]) snapshot_16).1.
Proof.
  destruct length_invariant_preserved as (_ & Hreset & _ & _ & Hdecode).
  split.
  - apply Hreset. simpl. lia.
  - apply Hdecode; [reflexivity |].
    intros d. vm_compute. intros [= <-]. reflexivity.
Defined.

(** C8 as stated fails on [Unserialize]: decoding a text whose [R] is empty
    next to [M = 16] installs 16 as the register count and an empty register
    array. *)
Lemma Unserialize_breaks_length_invariant :
  length_invariant (mkHyperLogLog 16 4 0.673 (replicate 16 0))
  /\ Unserialize unmarshal_samples (mkHyperLogLog 16 4 0.673 (replicate 16 0))
       snapshot_without_registers
     = (mkHyperLogLog 16 4 0.673 [], [])
  /\ ~ length_invariant (mkHyperLogLog 16 4 0.673 []).
Proof.
  split; [reflexivity |]. split; [vm_compute; reflexivity |].
  unfold length_invariant. cbn. lia.
Qed.

(** C9, as the code has it.  When [json.Unmarshal] rejects the text,
    [Unserialize] prints the error on standard output and returns; it has no
    result, so the caller is handed nothing, and the receiver is left as it
    was. *)
Theorem Unserialize_error_is_only_printed
    (unmarshal : string -> DataObj * option string)
    (h : HyperLogLog) (str : string) (d : DataObj) (err : string) :
  unmarshal str = (d, Some err) ->
  Unserialize unmarshal h str = (h, [("error: " ++ err)%string]).
Proof. intros E. unfold Unserialize. rewrite E. reflexivity. Qed.

Lemma Unserialize_error_is_only_printed_witness :
  Unserialize unmarshal_samples (mkHyperLogLog 16 4 0.673 (replicate 16 0))
    snapshot_cut_short
  = (mkHyperLogLog 16 4 0.673 (replicate 16 0),
     ["error: unexpected end of JSON input"%string]).
Proof.
  exact (Unserialize_error_is_only_printed unmarshal_samples
           (mkHyperLogLog 16 4 0.673 (replicate 16 0)) snapshot_cut_short
           (mkDataObj 0 0 0 []) "unexpected end of JSON input" eq_refl).
Defined.

(** C9 as stated fails: on a text cut short the call returns like any other,
    with the error only printed, and it leaves the caller with the very
    estimator that a successful decode of the estimator's own snapshot
    leaves. *)
Lemma Unserialize_reports_no_error :
  Unserialize unmarshal_samples (mkHyperLogLog 16 4 0.673 (replicate 16 0))
    snapshot_cut_short
  = (mkHyperLogLog 16 4 0.673 (replicate 16 0),
     ["error: unexpected end of JSON input"%string])
  /\ Unserialize unmarshal_samples (mkHyperLogLog 16 4 0.673 (replicate 16 0))
       snapshot_16
     = (mkHyperLogLog 16 4 0.673 (replicate 16 0), []).
Proof. split; vm_compute; reflexivity. Qed.


(** * Further properties *)

(** ** rho on its own *)

(** X3.  For a 32-bit word and a bound of at most 32, [rho] returns the
    position, counted from 1 at the top, of the leftmost set bit of the word
    when that bit is among the top [max] bits, and [max + 1] otherwise; the
    result lies between 1 and [max + 1]. *)
Theorem rho_counts_leading_zeros (fuel : nat) (val max : Z) :
  hash32 val -> 0 <= max <= 32 -> (Z.to_nat max < fuel)%nat ->
  let r := if val <? 2 ^ (32 - max) then max + 1 else 32 - Z.log2 val in
  rho fuel val max = Done r /\ 1 <= r <= max + 1.
Proof.
  intros Hval Hmax Hfuel r. unfold hash32 in Hval.
  assert (Hr : 1 <= r <= max + 1).
  { unfold r. destruct (Z.ltb_spec val (2 ^ (32 - max))) as [Hlt | Hge]; [lia |].
    assert (0 < 2 ^ (32 - max)) by (apply Z.pow_pos_nonneg; lia).
    assert (Z.log2 val < 32) by (apply Z.log2_lt_pow2; lia).
    assert (32 - max <= Z.log2 val) by (apply Z.log2_le_pow2; lia).
    lia. }
  split; [| exact Hr].
  unfold rho. rewrite (rho_loop_scan (Z.to_nat max) fuel val 1 max) by lia.
  rewrite Z2Nat.id by lia. f_equal. unfold u8.
  replace (1 + 31 - Z.log2 val) with (32 - Z.log2 val) by lia. fold r.
  apply Z.mod_small. lia.
Qed.

Lemma rho_counts_leading_zeros_witness :
  rho 6 0x00800000 5 = Done 6 /\ rho 11 0x00800000 10 = Done 9.
Proof.
  split.
  - exact (proj1 (rho_counts_leading_zeros 6 0x00800000 5
                    ltac:(unfold hash32; lia) ltac:(lia) ltac:(lia))).
  - exact (proj1 (rho_counts_leading_zeros 11 0x00800000 10
                    ltac:(unfold hash32; lia) ltac:(lia) ltac:(lia))).
Defined.

Lemma rho_loop_bounded (d : nat) :
  forall (fuel : nat) (val r max : Z),
    0 <= r -> r + Z.of_nat d = max + 1 -> max + 1 < 2 ^ 32 -> (d < fuel)%nat ->
    exists x, rho_loop fuel val max r = Done x.
Proof.
  induction d as [| d IH]; intros fuel val r max Hr Hd Hmax Hfuel;
    destruct fuel as [| fuel]; try lia; cbn [rho_loop].
  - replace (r <=? max) with false by (symmetry; apply Z.leb_gt; lia).
    rewrite andb_false_r. eexists. reflexivity.
  - destruct ((Z.land val 0x80000000 =? 0) && (r <=? max)); [| eexists; reflexivity].
    apply IH; unfold u32; rewrite ?Z.mod_small by lia; lia.
Qed.

Lemma rho_loop_nonzero (n : nat) :
  forall (fuel : nat) (val r : Z),
    0 < val < 2 ^ 32 -> 31 - Z.log2 val = Z.of_nat n -> (n < fuel)%nat ->
    exists x, rho_loop fuel val (2 ^ 32 - 1) r = Done x.
Proof.
  induction n as [| n IH]; intros fuel val r Hval Hn Hfuel;
    destruct fuel as [| fuel]; try lia; cbn [rho_loop];
    rewrite land_top_bit by lia.
  - assert (Z.log2 val = 31) by lia.
    assert (2 ^ 31 <= val) by (apply Z.log2_le_pow2; lia).
    replace (val <? 2 ^ 31) with false by (symmetry; apply Z.ltb_ge; lia).
    eexists. reflexivity.
  - assert (val < 2 ^ 31) by (apply Z.log2_lt_pow2; lia).
    destruct ((val <? 2 ^ 31) && (r <=? 2 ^ 32 - 1)); [| eexists; reflexivity].
    rewrite shl32_1 by lia.
    apply IH; [lia | rewrite Z.log2_double by lia; lia | lia].
Qed.

(** X4.  On 32-bit arguments [rho] returns in every case but one: a zero
    word with the largest bound, [0xFFFFFFFF], on which its loop never
    ends. *)
Theorem rho_terminates_unless_zero_unbounded (val max : Z) :
  hash32 val -> 0 <= max < 2 ^ 32 ->
  terminates (fun fuel => rho fuel val max) <-> ~ (val = 0 /\ max = 2 ^ 32 - 1).
Proof.
  intros Hval Hmax. unfold hash32 in Hval. split.
  - intros [fuel Hfuel] [-> ->]. apply Hfuel.
    unfold rho. apply rho_loop_zero_unbounded. lia.
  - intros Hnot. destruct (Z.eq_dec max (2 ^ 32 - 1)) as [-> | Hne].
    + assert (Hpos : 0 < val < 2 ^ 32) by lia.
      assert (Z.log2 val < 32) by (apply Z.log2_lt_pow2; lia).
      pose proof (Z.log2_nonneg val).
      destruct (rho_loop_nonzero (Z.to_nat (31 - Z.log2 val))
                  (S (Z.to_nat (31 - Z.log2 val))) val 1 Hpos ltac:(lia) ltac:(lia))
        as [x Hx].
      exists (S (Z.to_nat (31 - Z.log2 val))). unfold rho. rewrite Hx. discriminate.
    + destruct (rho_loop_bounded (Z.to_nat max) (S (Z.to_nat max)) val 1 max
                  ltac:(lia) ltac:(lia) ltac:(lia) ltac:(lia)) as [x Hx].
      exists (S (Z.to_nat max)). unfold rho. rewrite Hx. discriminate.
Qed.

Lemma rho_terminates_unless_zero_unbounded_witness :
  terminates (fun fuel => rho fuel 0 7).
Proof.
  apply (rho_terminates_unless_zero_unbounded 0 7);
    [unfold hash32; lia | lia | intros [_ H]; discriminate H].
Defined.

(** ** Streams of hashes *)

Lemma Forall2_le_refl (l : list Z) : Forall2 Z.le l l.
Proof. induction l; constructor; [lia | assumption]. Qed.

Lemma Forall2_le_trans (l1 l2 l3 : list Z) :
  Forall2 Z.le l1 l2 -> Forall2 Z.le l2 l3 -> Forall2 Z.le l1 l3.
Proof. apply Forall2_trans. intros x y z. lia. Qed.

Lemma insert_max_ge (regs : list Z) (j : nat) (old r : Z) :
  regs !! j = Some old -> Forall2 Z.le regs (<[j := Z.max old r]> regs).
Proof.
  intros Hold. rewrite <- (list_insert_id regs j old Hold) at 1.
  apply Forall2_insert; [apply Forall2_le_refl | lia].
Qed.

Lemma Add_fields (fuel : nat) (h h' : HyperLogLog) (val : Z) :
  Add fuel h val = Done h' -> m h' = m h /\ b h' = b h /\ alpha h' = alpha h.
Proof.
  unfold Add.
  destruct (rho fuel (shl32 val (b h)) (u32 (32 - b h))) as [r | |];
    cbn [mbind exec_bind]; try discriminate.
  destruct (registers h !! Z.to_nat (shr32 val (u32 (32 - b h)))) as [old |];
    [| discriminate].
  intros [= <-]. destruct (old <? r); repeat split.
Qed.

(** One [Add] on an estimator of the data model with at most 32 index
    bits. *)
Lemma Add_step (fuel : nat) (h : HyperLogLog) (val : Z) :
  valid h -> b h <= 32 -> hash32 val -> (33 <= fuel)%nat ->
  exists h',
    Add fuel h val = Done h' /\ valid h'
    /\ Forall2 Z.le (registers h) (registers h')
    /\ (ranks_bounded h -> ranks_bounded h').
Proof.
  intros [Hm Hb Hlen Hbytes] Hb32 Hval Hfuel.
  unfold length_invariant in Hlen. unfold hash32 in Hval.
  assert (Hk : 0 <= b h <= 32) by lia.
  destruct (Add_returns fuel h val Hk ltac:(lia) Hval Hfuel) as (Hj & old & Hold & E).
  pose proof (rank_range val (b h) Hval Hk) as Hr.
  set (r := rank (shl32 val (b h)) (32 - b h)) in *.
  set (j := Z.to_nat (Z.shiftr val (32 - b h))) in *.
  assert (Hbyte_old : byte old).
  { rewrite Forall_lookup in Hbytes. exact (Hbytes j old Hold). }
  eexists. split; [exact E |]. split; [| split].
  - split; cbn [set_registers m b registers]; try assumption.
    + unfold length_invariant. cbn [set_registers m registers].
      rewrite length_insert. exact Hlen.
    + apply Forall_insert; [exact Hbytes |]. unfold byte in *. lia.
  - cbn [set_registers registers]. apply insert_max_ge. exact Hold.
  - unfold ranks_bounded. cbn [set_registers b registers]. intros Hbound.
    apply Forall_insert; [exact Hbound |].
    rewrite Forall_lookup in Hbound. specialize (Hbound j old Hold).
    cbn beta in Hbound. lia.
Qed.

Lemma exec_bind_assoc {X Y W : Type} (c : exec X) (g : X -> exec Y) (k : Y -> exec W) :
  (c ≫= g) ≫= k = c ≫= (fun x => g x ≫= k).
Proof. destruct c; reflexivity. Qed.

Lemma Add_all_from (fuel : nat) (hashes : list Z) :
  forall c : exec HyperLogLog,
    foldl (fun acc val => h' ← acc; Add fuel h' val) c hashes =
    c ≫= (fun h => Add_all fuel h hashes).
Proof.
  unfold Add_all. induction hashes as [| v l IH]; intros c; cbn [foldl].
  - destruct c; reflexivity.
  - rewrite IH, exec_bind_assoc. destruct c as [h | |]; cbn [mbind exec_bind];
      try reflexivity.
    rewrite IH. reflexivity.
Qed.

Lemma Add_all_cons (fuel : nat) (h : HyperLogLog) (v : Z) (l : list Z) :
  Add_all fuel h (v :: l) = Add fuel h v ≫= (fun h' => Add_all fuel h' l).
Proof.
  unfold Add_all at 1. cbn [foldl]. rewrite Add_all_from. reflexivity.
Qed.

(** A sequence of [Add] calls returns and stays in the data model. *)
Lemma Add_all_valid (fuel : nat) (hashes : list Z) :
  forall h : HyperLogLog,
    valid h -> b h <= 32 -> Forall hash32 hashes -> (33 <= fuel)%nat ->
    exists h', Add_all fuel h hashes = Done h' /\ valid h' /\ m h' = m h /\ b h' = b h.
Proof.
  induction hashes as [| v l IH]; intros h Hvalid Hb32 Hhashes Hfuel.
  - exists h. repeat split; try apply Hvalid.
  - inversion Hhashes as [| ? ? Hv Hl]; subst.
    destruct (Add_step fuel h v Hvalid Hb32 Hv Hfuel) as (h1 & E1 & Hvalid1 & _ & _).
    destruct (Add_fields _ _ _ _ E1) as (Hm1 & Hb1 & _).
    destruct (IH h1 Hvalid1 ltac:(lia) Hl Hfuel) as (h' & E & Hvalid' & Hm' & Hb').
    exists h'. rewrite Add_all_cons, E1. cbn [mbind exec_bind].
    split; [exact E |]. split; [exact Hvalid' |]. split; congruence.
Qed.

(** X5.  On an estimator of the data model with at most 32 index bits, any
    sequence of [Add] calls on 32-bit hashes returns: the estimator stays in
    the data model, no register decreases, and registers that were at most
    [32 - b + 1] stay so. *)
Theorem Add_all_keeps_data_model (fuel : nat) (hashes : list Z) :
  forall h : HyperLogLog,
    valid h -> b h <= 32 -> Forall hash32 hashes -> (33 <= fuel)%nat ->
    exists h',
      Add_all fuel h hashes = Done h'
      /\ valid h' /\ m h' = m h /\ b h' = b h /\ alpha h' = alpha h
      /\ Forall2 Z.le (registers h) (registers h')
      /\ (ranks_bounded h -> ranks_bounded h').
Proof.
  induction hashes as [| v l IH]; intros h Hvalid Hb32 Hhashes Hfuel.
  - exists h. repeat split; try assumption; try apply Hvalid.
    + apply Forall2_le_refl.
    + intros H. exact H.
  - inversion Hhashes as [| ? ? Hv Hl]; subst.
    destruct (Add_step fuel h v Hvalid Hb32 Hv Hfuel) as (h1 & E1 & Hvalid1 & Hle1 & Hbound1).
    destruct (Add_fields _ _ _ _ E1) as (Hm1 & Hb1 & Ha1).
    destruct (IH h1 Hvalid1 ltac:(lia) Hl Hfuel)
      as (h' & E & Hvalid' & Hm' & Hb' & Ha' & Hle' & Hbound').
    exists h'. rewrite Add_all_cons, E1. cbn [mbind exec_bind].
    split; [exact E |]. split; [exact Hvalid' |].
    split; [congruence |]. split; [congruence |]. split; [congruence |].
    split; [exact (Forall2_le_trans _ _ _ Hle1 Hle') |].
    intros H. apply Hbound', Hbound1, H.
Qed.

Lemma Add_all_keeps_data_model_witness :
  exists h',
    Add_all 33 (mkHyperLogLog 16 4 0.673 (replicate 16 0)) hashes_A = Done h'
    /\ valid h' /\ ranks_bounded h'.
Proof.
  destruct (Add_all_keeps_data_model 33 hashes_A
              (mkHyperLogLog 16 4 0.673 (replicate 16 0))
              (valid_fresh 4 0.673 ltac:(lia)) ltac:(simpl; lia)
              ltac:(repeat constructor; unfold hash32; lia) ltac:(lia))
    as (h' & E & Hvalid & _ & _ & _ & _ & Hbound).
  exists h'. split; [exact E |]. split; [exact Hvalid |].
  apply Hbound. unfold ranks_bounded. cbn [registers b].
  apply Forall_replicate. lia.
Defined.

(** ** Merge and streams of hashes *)

Lemma valid_same_index_bits (h1 h2 : HyperLogLog) :
  valid h1 -> valid h2 -> m h1 = m h2 -> b h1 = b h2.
Proof.
  intros [Hm1 Hb1 _ _] [Hm2 Hb2 _ _] Hm.
  apply (Z.pow_inj_r 2); [lia | lia | lia | congruence].
Qed.

Lemma zip_with_max_insert_r (l1 : list Z) :
  forall (l2 : list Z) (j : nat) (o1 o2 r : Z),
    l1 !! j = Some o1 -> l2 !! j = Some o2 ->
    zip_with Z.max l1 (<[j := Z.max o2 r]> l2) =
    <[j := Z.max (Z.max o1 o2) r]> (zip_with Z.max l1 l2).
Proof.
  induction l1 as [| x l1 IH]; intros [| y l2] [| j] o1 o2 r H1 H2;
    try discriminate; cbn in *.
  - injection H1 as ->. injection H2 as ->. f_equal. lia.
  - f_equal. apply IH; assumption.
Qed.

Lemma Forall_zip_with_max (P : Z -> Prop) (l1 : list Z) :
  forall l2 : list Z,
    (forall x y, P x -> P y -> P (Z.max x y)) ->
    Forall P l1 -> Forall P l2 -> Forall P (zip_with Z.max l1 l2).
Proof.
  induction l1 as [| x l1 IH]; intros [| y l2] Hmax H1 H2; cbn [zip_with];
    try constructor.
  - inversion H1; inversion H2; subst. apply Hmax; assumption.
  - inversion H1; inversion H2; subst. apply IH; assumption.
Qed.

Lemma Merge_valid (h1 h2 : HyperLogLog) :
  valid h1 -> valid h2 -> m h1 = m h2 ->
  let h12 := set_registers h1 (zip_with Z.max (registers h1) (registers h2)) in
  Merge h1 h2 = Done (h12, None) /\ valid h12
  /\ (ranks_bounded h1 -> ranks_bounded h2 -> ranks_bounded h12).
Proof.
  intros Hv1 Hv2 Hm h12.
  pose proof (valid_same_index_bits h1 h2 Hv1 Hv2 Hm) as Hb.
  destruct Hv1 as [Hm1 Hb1 Hlen1 Hbytes1]. destruct Hv2 as [Hm2 Hb2 Hlen2 Hbytes2].
  unfold length_invariant in Hlen1, Hlen2.
  assert (Hlen : length (registers h1) = length (registers h2)) by lia.
  split; [apply Merge_same_length; assumption |]. split.
  - split; unfold h12; cbn [set_registers m b registers]; try assumption.
    + unfold length_invariant, set_registers. cbn [m registers].
      rewrite length_zip_with. lia.
    + apply Forall_zip_with_max; try assumption.
      intros x y Hx Hy. unfold byte in *. lia.
  - unfold ranks_bounded, h12. cbn [set_registers b registers]. rewrite <- Hb.
    intros Hr1 Hr2.
    apply (Forall_zip_with_max (fun r => 0 <= r <= 32 - b h1 + 1));
      try assumption.
    intros x y Hx Hy. lia.
Qed.

(** One more hash in the merged estimator, before or after the merge. *)
Lemma Merge_Add_step (fuel : nat) (h1 h2 h2v : HyperLogLog) (v : Z) :
  valid h1 -> valid h2 -> m h1 = m h2 -> b h1 <= 32 -> hash32 v ->
  (33 <= fuel)%nat -> Add fuel h2 v = Done h2v ->
  Add fuel (set_registers h1 (zip_with Z.max (registers h1) (registers h2))) v =
  Done (set_registers h1 (zip_with Z.max (registers h1) (registers h2v))).
Proof.
  intros Hv1 Hv2 Hm Hb32 Hv Hfuel Hadd.
  pose proof (valid_same_index_bits h1 h2 Hv1 Hv2 Hm) as Hb.
  destruct (Merge_valid h1 h2 Hv1 Hv2 Hm) as (_ & Hv12 & _).
  destruct Hv1 as [Hm1 Hb1 Hlen1 _]. destruct Hv2 as [Hm2 Hb2 Hlen2 _].
  unfold length_invariant in Hlen1, Hlen2. unfold hash32 in Hv.
  destruct (Add_returns fuel h2 v ltac:(lia) ltac:(lia) Hv Hfuel)
    as (Hj & o2 & Ho2 & E2).
  rewrite E2 in Hadd. injection Hadd as <-.
  set (h12 := set_registers h1 (zip_with Z.max (registers h1) (registers h2))) in *.
  destruct (Add_returns fuel h12 v) as (_ & o12 & Ho12 & E12);
    try assumption; unfold h12; cbn [set_registers b registers]; try lia.
  { rewrite length_zip_with. lia. }
  unfold h12 in Ho12, E12. cbn [set_registers b registers m alpha] in Ho12, E12.
  rewrite E12. unfold set_registers. cbn [m b alpha registers]. do 2 f_equal.
  rewrite <- Hb in *.
  set (j := Z.to_nat (Z.shiftr v (32 - b h1))) in *.
  destruct (lookup_lt_is_Some_2 (registers h1) j) as [o1 Ho1].
  { apply lookup_lt_Some in Ho2. lia. }
  rewrite lookup_zip_with, Ho1, Ho2 in Ho12. cbn in Ho12. injection Ho12 as <-.
  symmetry. apply zip_with_max_insert_r; assumption.
Qed.

Lemma Add_all_under_merge (fuel : nat) (h1 : HyperLogLog) (hashes : list Z) :
  forall h2 h2' : HyperLogLog,
    valid h1 -> valid h2 -> m h1 = m h2 -> b h1 <= 32 -> Forall hash32 hashes ->
    (33 <= fuel)%nat -> Add_all fuel h2 hashes = Done h2' ->
    Add_all fuel (set_registers h1 (zip_with Z.max (registers h1) (registers h2))) hashes =
    Done (set_registers h1 (zip_with Z.max (registers h1) (registers h2'))).
Proof.
  induction hashes as [| v l IH]; intros h2 h2' Hv1 Hv2 Hm Hb32 Hhashes Hfuel Hall.
  - injection Hall as <-. reflexivity.
  - inversion Hhashes as [| ? ? Hv Hl]; subst.
    pose proof (valid_same_index_bits h1 h2 Hv1 Hv2 Hm) as Hb.
    destruct (Add_step fuel h2 v Hv2 ltac:(lia) Hv Hfuel) as (h2v & E & Hv2v & _ & _).
    destruct (Add_fields _ _ _ _ E) as (Hm2v & _ & _).
    rewrite Add_all_cons, E in Hall. cbn [mbind exec_bind] in Hall.
    rewrite Add_all_cons.
    rewrite (Merge_Add_step fuel h1 h2 h2v v) by assumption.
    cbn [mbind exec_bind].
    apply (IH h2v h2'); try assumption. congruence.
Qed.

(** X6.  Merging sees hashes as a union.  If [h2'] is [h2] after a
    sequence of [Add] calls, then merging [h2'] into [h1] gives what merging
    [h2] into [h1] and then adding the same hashes gives. *)
Theorem Merge_of_added_hashes (fuel : nat) (h1 h2 h2' : HyperLogLog) (hashes : list Z) :
  valid h1 -> valid h2 -> m h1 = m h2 -> b h1 <= 32 -> Forall hash32 hashes ->
  (33 <= fuel)%nat -> Add_all fuel h2 hashes = Done h2' ->
  exists h12 h12',
    Merge h1 h2 = Done (h12, None)
    /\ Merge h1 h2' = Done (h12', None)
    /\ Add_all fuel h12 hashes = Done h12'.
Proof.
  intros Hv1 Hv2 Hm Hb32 Hhashes Hfuel Hall.
  pose proof (valid_same_index_bits h1 h2 Hv1 Hv2 Hm) as Hb.
  destruct (Add_all_valid fuel hashes h2 Hv2 ltac:(lia) Hhashes Hfuel)
    as (h2'' & E & Hv2' & Hm2' & _).
  rewrite E in Hall. injection Hall as ->.
  destruct (Merge_valid h1 h2 Hv1 Hv2 Hm) as (E12 & _).
  destruct (Merge_valid h1 h2' Hv1 Hv2' ltac:(congruence)) as (E12' & _).
  eexists. eexists. split; [exact E12 |]. split; [exact E12' |].
  apply Add_all_under_merge; assumption.
Qed.

Lemma Merge_of_added_hashes_witness :
  exists h12 h12',
    Merge estimator_A (mkHyperLogLog 16 4 0.673 (replicate 16 0)) = Done (h12, None)
    /\ Merge estimator_A estimator_B = Done (h12', None)
    /\ Add_all 33 h12 hashes_B = Done h12'.
Proof.
  apply (Merge_of_added_hashes 33 estimator_A
           (mkHyperLogLog 16 4 0.673 (replicate 16 0)) estimator_B hashes_B).
  - exact valid_estimator_A.
  - exact (valid_fresh 4 0.673 ltac:(lia)).
  - reflexivity.
  - simpl. lia.
  - repeat constructor; unfold hash32; lia.
  - lia.
  - vm_compute. reflexivity.
Defined.

Lemma zip_with_max_assoc (l1 : list Z) :
  forall l2 l3 : list Z,
    zip_with Z.max (zip_with Z.max l1 l2) l3 =
    zip_with Z.max l1 (zip_with Z.max l2 l3).
Proof.
  induction l1 as [| x l1 IH]; intros [| y l2] [| z l3]; cbn [zip_with];
    try reflexivity.
  rewrite IH. f_equal. lia.
Qed.

(** X7.  Several estimators with the same register count, each holding
    that many registers, can be merged in any order and grouping: merging
    [hB] then [hC] into [hA], merging [hC] then [hB] into [hA], and merging
    into [hA] the result of merging [hC] into [hB] all leave the same
    estimator. *)
Theorem Merge_order_irrelevant (hA hB hC : HyperLogLog) :
  m hA = m hB -> m hA = m hC ->
  length_invariant hA -> length_invariant hB -> length_invariant hC ->
  let all :=
    set_registers hA
      (zip_with Z.max (zip_with Z.max (registers hA) (registers hB)) (registers hC)) in
  (Merge hA hB ≫= fun r => Merge r.1 hC) = Done (all, None)
  /\ (Merge hA hC ≫= fun r => Merge r.1 hB) = Done (all, None)
  /\ (Merge hB hC ≫= fun r => Merge hA r.1) = Done (all, None).
Proof.
  intros HmB HmC HA HB HC all. unfold length_invariant in HA, HB, HC.
  assert (HlB : length (registers hA) = length (registers hB)) by lia.
  assert (HlC : length (registers hA) = length (registers hC)) by lia.
  split; [| split].
  - rewrite Merge_same_length by assumption. cbn [mbind exec_bind fst].
    rewrite Merge_same_length
      by (cbn [set_registers m registers]; rewrite ?length_zip_with; lia).
    reflexivity.
  - rewrite Merge_same_length by assumption. cbn [mbind exec_bind fst].
    rewrite Merge_same_length
      by (cbn [set_registers m registers]; rewrite ?length_zip_with; lia).
    unfold all, set_registers. cbn [m b alpha registers]. do 3 f_equal.
    rewrite !zip_with_max_assoc. f_equal. apply zip_with_max_comm.
  - rewrite Merge_same_length by lia. cbn [mbind exec_bind fst].
    rewrite Merge_same_length
      by (cbn [set_registers m registers]; rewrite ?length_zip_with; lia).
    unfold all, set_registers. cbn [m b alpha registers]. do 3 f_equal.
    symmetry. apply zip_with_max_assoc.
Qed.

Lemma Merge_order_irrelevant_witness :
  (Merge (mkHyperLogLog 2 1 0.5 [1; 5]) (mkHyperLogLog 2 1 0.5 [4; 2])
     ≫= fun r => Merge r.1 (mkHyperLogLog 2 1 0.5 [3; 9]))
  = Done (mkHyperLogLog 2 1 0.5 [4; 9], None).
Proof.
  exact (proj1 (Merge_order_irrelevant
                  (mkHyperLogLog 2 1 0.5 [1; 5]) (mkHyperLogLog 2 1 0.5 [4; 2])
                  (mkHyperLogLog 2 1 0.5 [3; 9])
                  eq_refl eq_refl eq_refl eq_refl eq_refl)).
Defined.

Lemma merge_loop_overrun (regs2 : list Z) :
  forall (j : nat) (regs1 : list Z),
    (j <= length regs1)%nat -> (length regs1 < j + length regs2)%nat ->
    merge_loop j regs2 regs1 = Panic index_out_of_range.
Proof.
  induction regs2 as [| r rest IH]; intros j regs1 Hj Hover; cbn [merge_loop].
  - cbn [length] in Hover. lia.
  - destruct (regs1 !! j) as [old |] eqn:Hold; [| reflexivity].
    apply lookup_lt_Some in Hold. cbn [length] in Hover.
    apply IH; destruct (old <? r); rewrite ?length_insert; lia.
Qed.

(** X8.  [Merge] only compares the register counts [m]; the register
    arrays themselves may differ in length after [Unserialize].  When the
    other estimator holds more registers than the receiver, [Merge] panics
    with an index out of range; when it holds fewer, [Merge] returns no error
    and merges them into the first registers of the receiver, leaving the
    rest as they were. *)
Theorem Merge_of_arrays_of_different_length (h1 h2 : HyperLogLog) :
  m h1 = m h2 ->
  ((length (registers h1) < length (registers h2))%nat ->
   Merge h1 h2 = Panic index_out_of_range)
  /\ ((length (registers h2) <= length (registers h1))%nat ->
      Merge h1 h2 =
      Done (set_registers h1
              (zip_with Z.max (take (length (registers h2)) (registers h1)) (registers h2)
               ++ drop (length (registers h2)) (registers h1)),
            None)).
Proof.
  intros Hm. unfold Merge.
  replace (m h1 =? m h2) with true by (symmetry; apply Z.eqb_eq; exact Hm).
  cbn [negb]. split; intros Hlen.
  - rewrite merge_loop_overrun by lia. reflexivity.
  - pose proof (merge_loop_middle (registers h2) []
                  (take (length (registers h2)) (registers h1))
                  (drop (length (registers h2)) (registers h1))) as E.
    cbn [length app] in E. rewrite take_drop in E.
    rewrite E by (rewrite length_take; lia). reflexivity.
Qed.

Lemma Merge_of_arrays_of_different_length_witness :
  Merge (mkHyperLogLog 4 2 0.5 [1; 1]) (mkHyperLogLog 4 2 0.5 [0; 2; 0; 0])
  = Panic index_out_of_range
  /\ Merge (mkHyperLogLog 4 2 0.5 [1; 1; 1; 1]) (mkHyperLogLog 4 2 0.5 [0; 2])
     = Done (mkHyperLogLog 4 2 0.5 [1; 2; 1; 1], None).
Proof.
  split.
  - apply (Merge_of_arrays_of_different_length
             (mkHyperLogLog 4 2 0.5 [1; 1]) (mkHyperLogLog 4 2 0.5 [0; 2; 0; 0]) eq_refl).
    simpl. lia.
  - apply (Merge_of_arrays_of_different_length
             (mkHyperLogLog 4 2 0.5 [1; 1; 1; 1]) (mkHyperLogLog 4 2 0.5 [0; 2]) eq_refl).
    simpl. lia.
Defined.

(** X9.  A reset estimator is neutral for [Merge]: merging the reset copy
    of an estimator of the data model into it changes nothing, and merging
    the estimator into its reset copy gives the estimator back. *)
Theorem Merge_with_reset_estimator (h : HyperLogLog) :
  valid h ->
  Merge h (Reset h) = Done (h, None) /\ Merge (Reset h) h = Done (h, None).
Proof.
  intros [Hm Hb Hlen Hbytes]. unfold length_invariant in Hlen.
  assert (Hn : length (registers h) = Z.to_nat (m h)) by lia.
  split.
  - rewrite Merge_same_length;
      [| reflexivity | cbn [Reset set_registers registers]; rewrite length_replicate; lia].
    cbn [Reset set_registers registers].
    rewrite zip_with_max_comm, zip_with_max_zeros by assumption.
    destruct h; reflexivity.
  - rewrite Merge_same_length;
      [| reflexivity | cbn [Reset set_registers registers]; rewrite length_replicate; lia].
    cbn [Reset set_registers registers m b alpha].
    rewrite zip_with_max_zeros by assumption.
    destruct h; reflexivity.
Qed.

Lemma Merge_with_reset_estimator_witness :
  Merge estimator_A (Reset estimator_A) = Done (estimator_A, None).
Proof. exact (proj1 (Merge_with_reset_estimator estimator_A valid_estimator_A)). Defined.

(** X10.  [Merge] keeps the data model: for two estimators of the data model
    with the same register count it returns no error, the receiver stays in
    the data model with the same [m], [b] and [alpha], and if the registers
    of both were at most [32 - b + 1] those of the result are too. *)
Theorem Merge_keeps_data_model (h1 h2 : HyperLogLog) :
  valid h1 -> valid h2 -> m h1 = m h2 ->
  exists h12,
    Merge h1 h2 = Done (h12, None)
    /\ valid h12 /\ m h12 = m h1 /\ b h12 = b h1 /\ alpha h12 = alpha h1
    /\ (ranks_bounded h1 -> ranks_bounded h2 -> ranks_bounded h12).
Proof.
  intros Hv1 Hv2 Hm.
  destruct (Merge_valid h1 h2 Hv1 Hv2 Hm) as (E & Hv12 & Hbound).
  eexists. split; [exact E |]. split; [exact Hv12 |].
  repeat split. exact Hbound.
Qed.

Lemma Merge_keeps_data_model_witness :
  exists h12, Merge estimator_A estimator_B = Done (h12, None) /\ valid h12.
Proof.
  destruct (Merge_keeps_data_model estimator_A estimator_B
              valid_estimator_A valid_estimator_B eq_refl) as (h12 & E & Hv & _).
  exists h12. split; assumption.
Defined.

(** ** Reset *)

Lemma Add_all_fields (fuel : nat) (hashes : list Z) :
  forall h h' : HyperLogLog,
    Add_all fuel h hashes = Done h' ->
    m h' = m h /\ b h' = b h /\ alpha h' = alpha h.
Proof.
  induction hashes as [| v l IH]; intros h h' Hall.
  - injection Hall as <-. repeat split.
  - rewrite Add_all_cons in Hall.
    destruct (Add fuel h v) as [h1 | |] eqn:E; cbn [mbind exec_bind] in Hall;
      try discriminate.
    destruct (Add_fields _ _ _ _ E) as (Hm & Hb & Ha).
    destruct (IH h1 h' Hall) as (Hm' & Hb' & Ha').
    repeat split; congruence.
Qed.

Lemma Merge_fields (h1 h2 h1' : HyperLogLog) (e : option string) :
  Merge h1 h2 = Done (h1', e) ->
  m h1' = m h1 /\ b h1' = b h1 /\ alpha h1' = alpha h1.
Proof.
  unfold Merge. destruct (negb (m h1 =? m h2)).
  - intros [= <- _]. repeat split.
  - destruct (merge_loop 0 (registers h2) (registers h1)) as [regs | |];
      cbn [mbind exec_bind]; try discriminate.
    intros [= <- _]. repeat split.
Qed.

Lemma Reset_fields (h h' : HyperLogLog) :
  m h' = m h -> b h' = b h -> alpha h' = alpha h -> Reset h' = Reset h.
Proof. intros Hm Hb Ha. unfold Reset, set_registers. rewrite Hm, Hb, Ha. reflexivity. Qed.

(** X11.  [Reset] forgets every [Add] and [Merge]: after any sequence of
    [Add] calls that returns, and after any [Merge] that returns, [Reset]
    leaves the estimator that [Reset] would have left before; and the
    estimator that [New] returns is already reset.  So [Reset] brings an
    estimator built by [New] back to the state [New] returned. *)
Theorem Reset_forgets_Add_and_Merge :
  (forall fuel h hashes h', Add_all fuel h hashes = Done h' -> Reset h' = Reset h)
  /\ (forall h1 h2 h1' e, Merge h1 h2 = Done (h1', e) -> Reset h1' = Reset h1)
  /\ (forall T n h0, New T n = inl h0 -> Reset h0 = h0)
  /\ (forall T n fuel hashes h0 h,
        New T n = inl h0 -> Add_all fuel h0 hashes = Done h -> Reset h = h0).
Proof.
  assert (Hnew : forall T n h0, New T n = inl h0 -> Reset h0 = h0).
  { intros T n h0. unfold New.
    destruct (negb (Z.land n (uint (n - 1)) =? 0)); [discriminate |].
    intros [= <-]. reflexivity. }
  split; [| split; [| split]].
  - intros fuel h hashes h' Hall.
    destruct (Add_all_fields _ _ _ _ Hall) as (Hm & Hb & Ha).
    apply Reset_fields; assumption.
  - intros h1 h2 h1' e Hmerge.
    destruct (Merge_fields _ _ _ _ Hmerge) as (Hm & Hb & Ha).
    apply Reset_fields; assumption.
  - exact Hnew.
  - intros T n fuel hashes h0 h HN Hall.
    destruct (Add_all_fields _ _ _ _ Hall) as (Hm & Hb & Ha).
    rewrite <- (Hnew T n h0 HN). apply Reset_fields; assumption.
Qed.

Lemma Reset_forgets_Add_and_Merge_witness :
  Reset estimator_A = mkHyperLogLog 16 4 0.673 (replicate 16 0).
Proof.
  destruct Reset_forgets_Add_and_Merge as (_ & _ & _ & H).
  apply (H zero_target 16 33%nat hashes_A).
  - exact (New_power_of_two zero_target 4 ltac:(lia)).
  - vm_compute. reflexivity.
Defined.

(** X12.  After [Reset], [Count] returns 0, whatever the registers held:
    for every estimator with [m = 2^b], [b <= 52] and the bias constant of
    [m]. *)
Theorem Count_after_Reset (T : Target) (h : HyperLogLog) :
  m h = 2 ^ b h -> 0 <= b h <= 52 -> alpha h = get_alpha (m h) ->
  Count T (Reset h) = 0.
Proof.
  intros Hm Hb Ha. unfold Reset, set_registers. rewrite Ha, Hm.
  apply Count_fresh. exact Hb.
Qed.

Lemma Count_after_Reset_witness : Count zero_target (Reset estimator_AB) = 0.
Proof.
  apply Count_after_Reset; [reflexivity | simpl; lia | reflexivity].
Defined.

(** ** Intersect *)

(** The value of [Intersect] on two estimators of the data model with the
    same register count. *)
Lemma Intersect_value (T : Target) (h1 h2 : HyperLogLog) :
  valid h1 -> valid h2 -> m h1 = m h2 ->
  let unionCount :=
    Count T (mkHyperLogLog (m h1) (b h1) (get_alpha (m h1))
               (zip_with Z.max (registers h1) (registers h2))) in
  let cumulativeCount := u64 (Count T h1 + Count T h2) in
  Intersect T h1 h2 =
  Done (if cumulativeCount <? unionCount then 0 else cumulativeCount - unionCount, None).
Proof.
  intros [Hm1 Hb1 Hlen1 Hbytes1] [Hm2 Hb2 Hlen2 Hbytes2] Hm unionCount cumulativeCount.
  unfold length_invariant in Hlen1, Hlen2. unfold uint_bits in Hb1.
  set (fresh := mkHyperLogLog (m h1) (b h1) (get_alpha (m h1))
                  (replicate (Z.to_nat (m h1)) 0)).
  assert (Hnew : New T (m h1) = inl fresh).
  { unfold fresh. rewrite Hm1. apply New_power_of_two. exact Hb1. }
  assert (Hmerge1 : Merge fresh h1 = Done (set_registers fresh (registers h1), None)).
  { rewrite Merge_same_length.
    - unfold fresh at 2. cbn [registers].
      rewrite zip_with_max_zeros; [reflexivity | exact Hbytes1 | lia].
    - reflexivity.
    - unfold fresh. cbn [registers]. rewrite length_replicate. lia. }
  set (union := set_registers fresh (zip_with Z.max (registers h1) (registers h2))).
  assert (Hmerge2 : Merge (set_registers fresh (registers h1)) h2 = Done (union, None)).
  { rewrite Merge_same_length.
    - reflexivity.
    - exact Hm.
    - cbn [set_registers registers]. lia. }
  change unionCount with (Count T union). clear unionCount.
  assert (Hcum : 0 <= cumulativeCount < 2 ^ 64)
    by (unfold cumulativeCount, u64; apply Z.mod_pos_bound; lia).
  pose proof (Count_range T union) as Hunion.
  unfold Intersect.
  replace (m h1 =? m h2) with true by (symmetry; apply Z.eqb_eq; exact Hm).
  cbn [negb]. rewrite Hnew, Hmerge1. cbn [mbind exec_bind fst].
  rewrite Hmerge2. cbn [mbind exec_bind fst].
  fold cumulativeCount.
  destruct (Z.ltb_spec cumulativeCount (Count T union)) as [Hlt | Hge]; [reflexivity |].
  unfold u64 at 1. rewrite Z.mod_small by lia. reflexivity.
Qed.

(** X13.  [Intersect] builds its scratch estimator with [New], so on two
    estimators whose common register count is positive and not a power of
    two (which only [Unserialize] can produce) it returns 0 and the error of
    [New], although [Merge] accepts them. *)
Theorem Intersect_rejects_other_register_counts (T : Target) (h1 h2 : HyperLogLog) :
  m h1 = m h2 -> 0 < m h1 < 2 ^ 64 -> ~ (exists k, 0 <= k /\ m h1 = 2 ^ k) ->
  Intersect T h1 h2 = Done (0, Some (not_power_of_two_error (m h1))).
Proof.
  intros Hm Hrange Hnot. unfold Intersect.
  replace (m h1 =? m h2) with true by (symmetry; apply Z.eqb_eq; exact Hm).
  cbn [negb]. rewrite New_not_power_of_two by assumption. reflexivity.
Qed.

Lemma not_power_of_two_10 : ~ (exists k, 0 <= k /\ 10 = 2 ^ k).
Proof.
  intros (k & Hk & E).
  assert (k < 4).
  { destruct (Z.lt_ge_cases k 4) as [Hlt | Hge]; [exact Hlt |].
    pose proof (Z.pow_le_mono_r 2 4 k ltac:(lia) Hge). lia. }
  assert (Hc : k = 0 \/ k = 1 \/ k = 2 \/ k = 3) by lia.
  destruct Hc as [-> | [-> | [-> | ->]]]; discriminate E.
Qed.

Lemma Intersect_rejects_other_register_counts_witness :
  Intersect zero_target (mkHyperLogLog 10 4 0.7 (replicate 10 1))
    (mkHyperLogLog 10 4 0.7 (replicate 10 2))
  = Done (0, Some "number of registers 10 not a power of two"%string)
  /\ Merge (mkHyperLogLog 10 4 0.7 (replicate 10 1)) (mkHyperLogLog 10 4 0.7 (replicate 10 2))
     = Done (mkHyperLogLog 10 4 0.7 (replicate 10 2), None).
Proof.
  split; [| vm_compute; reflexivity].
  exact (Intersect_rejects_other_register_counts zero_target
           (mkHyperLogLog 10 4 0.7 (replicate 10 1)) (mkHyperLogLog 10 4 0.7 (replicate 10 2))
           eq_refl ltac:(simpl; lia) not_power_of_two_10).
Defined.

(** X14.  [Intersect] is symmetric on estimators of the data model with the
    same register count. *)
Theorem Intersect_symmetric (T : Target) (h1 h2 : HyperLogLog) :
  valid h1 -> valid h2 -> m h1 = m h2 -> Intersect T h1 h2 = Intersect T h2 h1.
Proof.
  intros Hv1 Hv2 Hm.
  pose proof (valid_same_index_bits h1 h2 Hv1 Hv2 Hm) as Hb.
  rewrite (Intersect_value T h1 h2) by assumption.
  rewrite (Intersect_value T h2 h1) by (try assumption; symmetry; exact Hm).
  rewrite <- Hm, <- Hb, (zip_with_max_comm (registers h2)), (Z.add_comm (Count T h2)).
  reflexivity.
Qed.

Lemma Intersect_symmetric_witness :
  Intersect zero_target estimator_A estimator_B = Intersect zero_target estimator_B estimator_A.
Proof.
  exact (Intersect_symmetric zero_target estimator_A estimator_B
           valid_estimator_A valid_estimator_B eq_refl).
Defined.

(** X15.  Intersecting an estimator with itself returns its own count: for
    an estimator of the data model that carries the bias constant of its [m]
    and whose count is below 2^63 (so that twice the count fits a
    [uint64]). *)
Theorem Intersect_with_itself (T : Target) (h : HyperLogLog) :
  valid h -> alpha h = get_alpha (m h) -> Count T h < 2 ^ 63 ->
  Intersect T h h = Done (Count T h, None).
Proof.
  intros Hv Ha Hc. rewrite Intersect_value by (try assumption; reflexivity).
  rewrite zip_with_max_diag, <- Ha.
  replace (mkHyperLogLog (m h) (b h) (alpha h) (registers h)) with h
    by (destruct h; reflexivity).
  pose proof (Count_range T h) as Hr.
  unfold u64. rewrite Z.mod_small by lia.
  replace (Count T h + Count T h <? Count T h) with false
    by (symmetry; apply Z.ltb_ge; lia).
  do 2 f_equal. lia.
Qed.

Lemma Intersect_with_itself_witness :
  Intersect zero_target estimator_A estimator_A = Done (44, None).
Proof.
  assert (E : Count zero_target estimator_A = 44) by (vm_compute; reflexivity).
  rewrite <- E.
  apply Intersect_with_itself; [exact valid_estimator_A | reflexivity | rewrite E; lia].
Defined.

(** X16.  Intersecting with a reset estimator returns 0: for an estimator
    of the data model with [b <= 52] that carries the bias constant of its
    [m]. *)
Theorem Intersect_with_reset_estimator (T : Target) (h : HyperLogLog) :
  valid h -> alpha h = get_alpha (m h) -> b h <= 52 ->
  Intersect T h (Reset h) = Done (0, None)
  /\ Intersect T (Reset h) h = Done (0, None).
Proof.
  intros Hv Ha Hb52.
  destruct Hv as [Hm Hb Hlen Hbytes]. unfold length_invariant in Hlen.
  assert (Hv : valid h) by (split; assumption).
  assert (Hvr : valid (Reset h)).
  { split; cbn [Reset set_registers m b registers]; try assumption.
    - unfold length_invariant, Reset, set_registers. cbn [m registers].
      rewrite length_replicate. lia.
    - apply Forall_replicate. unfold byte. lia. }
  assert (Hzero : Count T (Reset h) = 0)
    by (unfold Reset, set_registers; rewrite Ha, Hm; apply Count_fresh; lia).
  assert (Hunion : mkHyperLogLog (m h) (b h) (get_alpha (m h)) (registers h) = h)
    by (rewrite <- Ha; destruct h; reflexivity).
  pose proof (Count_range T h) as Hr.
  split.
  - rewrite Intersect_value by (try assumption; reflexivity).
    cbn [Reset set_registers registers].
    rewrite zip_with_max_comm, zip_with_max_zeros by (try assumption; lia).
    rewrite Hunion. fold (Reset h). rewrite Hzero, Z.add_0_r.
    unfold u64. rewrite Z.mod_small by lia.
    rewrite Z.ltb_irrefl. do 2 f_equal. lia.
  - rewrite Intersect_value by (try assumption; reflexivity).
    cbn [Reset set_registers registers m b].
    rewrite zip_with_max_zeros by (try assumption; lia).
    rewrite Hunion. fold (Reset h). rewrite Hzero, Z.add_0_l.
    unfold u64. rewrite Z.mod_small by lia.
    rewrite Z.ltb_irrefl. do 2 f_equal. lia.
Qed.

Lemma Intersect_with_reset_estimator_witness :
  Intersect zero_target estimator_A (Reset estimator_A) = Done (0, None).
Proof.
  exact (proj1 (Intersect_with_reset_estimator zero_target estimator_A
                  valid_estimator_A eq_refl ltac:(simpl; lia))).
Defined.

(** ** Add outside the data model *)

(** X17.  [Add] reads [b] and the register array only, never [m].  With
    [b <= 32] it panics exactly when the register array is too short for the
    index that the hash selects (an estimator decoded from a snapshot with
    too few registers), and otherwise it returns. *)
Theorem Add_panics_exactly_on_short_array (fuel : nat) (h : HyperLogLog) (val : Z) :
  0 <= b h <= 32 -> hash32 val -> (33 <= fuel)%nat ->
  let j := Z.shiftr val (32 - b h) in
  (Add fuel h val = Panic index_out_of_range
   <-> Z.of_nat (length (registers h)) <= j)
  /\ ((exists h', Add fuel h val = Done h') <-> j < Z.of_nat (length (registers h))).
Proof.
  intros Hb Hval Hfuel j. unfold hash32 in Hval.
  assert (Hj : 0 <= j) by (apply Z.shiftr_nonneg; lia).
  assert (Hk : u32 (32 - b h) = 32 - b h) by (unfold u32; apply Z.mod_small; lia).
  unfold Add. rewrite Hk, rho_rank by (try assumption; lia).
  cbn [mbind exec_bind].
  assert (Hshr : shr32 val (32 - b h) = j).
  { unfold shr32. destruct (Z.ltb_spec (32 - b h) 32) as [Hlt | Hge]; [reflexivity |].
    assert (b h = 0) as Hb0 by lia. unfold j. rewrite Hb0.
    change (32 - 0) with 32. rewrite Z.shiftr_div_pow2 by lia.
    symmetry. apply Z.div_small. lia. }
  rewrite Hshr.
  destruct (registers h !! Z.to_nat j) as [old |] eqn:E.
  - apply lookup_lt_Some in E.
    split; split.
    + discriminate.
    + lia.
    + lia.
    + intros _. eexists. reflexivity.
  - apply lookup_ge_None in E.
    split; split.
    + lia.
    + reflexivity.
    + intros [h' Hh']. discriminate Hh'.
    + lia.
Qed.

Lemma Add_panics_exactly_on_short_array_witness :
  Add 33 (mkHyperLogLog 16 4 0.673 [0; 0; 0]) 0x30000000 = Panic index_out_of_range.
Proof.
  apply (Add_panics_exactly_on_short_array 33 (mkHyperLogLog 16 4 0.673 [0; 0; 0]) 0x30000000);
    [simpl; lia | unfold hash32; lia | lia | vm_compute; discriminate].
Defined.

(** On a zero word the loop of [rho] runs until [r] passes the bound. *)
Lemma rho_loop_zero (d : nat) :
  forall (fuel : nat) (r max : Z),
    0 <= r -> r + Z.of_nat d = max + 1 -> max + 1 < 2 ^ 32 -> (d < fuel)%nat ->
    rho_loop fuel 0 max r = Done (u8 (max + 1)).
Proof.
  induction d as [| d IH]; intros fuel r max Hr Hd Hmax Hfuel;
    destruct fuel as [| fuel]; try lia; cbn [rho_loop];
    change (Z.land 0 0x80000000 =? 0) with true; cbn [andb].
  - replace (r <=? max) with false by (symmetry; apply Z.leb_gt; lia).
    f_equal. f_equal. lia.
  - replace (r <=? max) with true by (symmetry; apply Z.leb_le; lia).
    change (shl32 0 1) with 0.
    assert (Hu : u32 (r + 1) = r + 1) by (unfold u32; apply Z.mod_small; lia).
    rewrite Hu. apply IH; lia.
Qed.

(** X18.  With more than 32 index bits [32 - b] wraps around as a [uint32]
    and both shifts of [Add] give 0, whatever the hash.  With [b = 33] the
    bound of [rho] is the largest [uint32] and [Add] never returns.  With
    [34 <= b < 64] the loop of [rho] runs [2^32 + 33 - b] times and then
    every [Add] raises register 0 to [289 - b], the low byte of the
    counter. *)
Theorem Add_beyond_32_index_bits (h : HyperLogLog) (val old : Z) :
  33 <= b h < 64 -> hash32 val ->
  (b h = 33 -> forall fuel, Add fuel h val = Timeout)
  /\ (34 <= b h -> registers h !! 0%nat = Some old ->
      exists fuel0, forall fuel, (fuel0 <= fuel)%nat ->
        Add fuel h val =
        Done (if old <? 289 - b h
              then set_registers h (<[0%nat := 289 - b h]> (registers h))
              else h)).
Proof.
  intros Hb Hval.
  assert (Hshl : shl32 val (b h) = 0).
  { unfold shl32. replace (b h <? 32) with false by (symmetry; apply Z.ltb_ge; lia).
    reflexivity. }
  assert (Hk : u32 (32 - b h) = 2 ^ 32 + 32 - b h).
  { unfold u32. replace (32 - b h) with (2 ^ 32 + 32 - b h + (-1) * 2 ^ 32) by lia.
    rewrite Z.mod_add by lia. apply Z.mod_small. lia. }
  split.
  - intros Hb33 fuel. apply Add_timeout. rewrite Hshl, Hk, Hb33.
    apply rho_loop_zero_unbounded. lia.
  - intros Hb34 Hold. exists (S (Z.to_nat (2 ^ 32 + 32 - b h))).
    intros fuel Hfuel. unfold Add, rho. rewrite Hshl, Hk.
    rewrite (rho_loop_zero (Z.to_nat (2 ^ 32 + 32 - b h)) fuel 1 (2 ^ 32 + 32 - b h))
      by lia.
    cbn [mbind exec_bind].
    assert (Hr : u8 (2 ^ 32 + 32 - b h + 1) = 289 - b h).
    { unfold u8.
      replace (2 ^ 32 + 32 - b h + 1) with (289 - b h + (2 ^ 24 - 1) * 2 ^ 8) by lia.
      rewrite Z.mod_add by lia. apply Z.mod_small. lia. }
    rewrite Hr.
    assert (Hj : shr32 val (2 ^ 32 + 32 - b h) = 0).
    { unfold shr32.
      replace (2 ^ 32 + 32 - b h <? 32) with false by (symmetry; apply Z.ltb_ge; lia).
      reflexivity. }
    rewrite Hj. change (Z.to_nat 0) with 0%nat. rewrite Hold. reflexivity.
Qed.

Lemma Add_beyond_32_index_bits_witness :
  ~ terminates (fun fuel => Add fuel (mkHyperLogLog (2 ^ 33) 33 0.7 [0]) 12345)
  /\ exists fuel0, forall fuel, (fuel0 <= fuel)%nat ->
       Add fuel (mkHyperLogLog (2 ^ 34) 34 0.7 [0]) 12345
       = Done (mkHyperLogLog (2 ^ 34) 34 0.7 [255]).
Proof.
  split.
  - intros [fuel Hfuel]. apply Hfuel.
    apply (Add_beyond_32_index_bits (mkHyperLogLog (2 ^ 33) 33 0.7 [0]) 12345 0);
      [simpl; lia | unfold hash32; lia | reflexivity].
  - apply (Add_beyond_32_index_bits (mkHyperLogLog (2 ^ 34) 34 0.7 [0]) 12345 0);
      [simpl; lia | unfold hash32; lia | simpl; lia | reflexivity].
Defined.

(** ** Snapshots *)

Lemma map_u8_bytes (l : list Z) : map u8 l = l <-> Forall byte l.
Proof.
  induction l as [| x l IH]; cbn [map].
  - split; [constructor | reflexivity].
  - split.
    + intros [= Hx Hl]. constructor; [| apply IH; exact Hl].
      unfold byte. rewrite <- Hx. unfold u8. apply Z.mod_pos_bound. lia.
    + intros H. apply Forall_cons in H as [Hx Hl]. f_equal; [| apply IH; exact Hl].
      unfold u8. apply Z.mod_small. exact Hx.
Qed.

Lemma SerializeData_fields (h : HyperLogLog) :
  SerializeData h = mkDataObj (m h) (b h) (alpha h) (registers h).
Proof. unfold SerializeData. rewrite map_id. reflexivity. Qed.

(** X19.  A snapshot restores the estimator it was taken from: when
    [json.Marshal] accepts the data of an estimator whose registers are
    bytes and [json.Unmarshal] reads the text back as the same data,
    [Serialize] returns the text and prints nothing, and [Unserialize] of the
    text leaves any receiver equal to the original estimator, field by
    field, and prints nothing. *)
Theorem Serialize_Unserialize_round_trip
    (marshal : DataObj -> string + string) (unmarshal : string -> DataObj * option string)
    (h h0 : HyperLogLog) (text : string) :
  Forall byte (registers h) ->
  marshal (SerializeData h) = inl text ->
  unmarshal text = (SerializeData h, None) ->
  Serialize marshal h = (text, [])
  /\ Unserialize unmarshal h0 (Serialize marshal h).1 = (h, []).
Proof.
  intros Hbytes Hmarshal Hunmarshal.
  assert (HS : Serialize marshal h = (text, []))
    by (unfold Serialize; rewrite Hmarshal; reflexivity).
  split; [exact HS |].
  rewrite HS. cbn [fst]. unfold Unserialize. rewrite Hunmarshal.
  rewrite SerializeData_fields. cbn [M B A R].
  rewrite (proj2 (map_u8_bytes (registers h)) Hbytes).
  destruct h; reflexivity.
Qed.

Lemma Serialize_Unserialize_round_trip_witness :
  Unserialize unmarshal_samples estimator_A
    (Serialize (fun _ => inl snapshot_16) (mkHyperLogLog 16 4 0.673 (replicate 16 0))).1
  = (mkHyperLogLog 16 4 0.673 (replicate 16 0), []).
Proof.
  apply (Serialize_Unserialize_round_trip (fun _ => inl snapshot_16) unmarshal_samples
           (mkHyperLogLog 16 4 0.673 (replicate 16 0)) estimator_A snapshot_16).
  - apply Forall_replicate. unfold byte. lia.
  - reflexivity.
  - vm_compute. reflexivity.
Defined.

(** X20.  What [Unserialize] installs from an accepted text: the registers
    are the decoded [R] reduced to bytes, as many as [R] has; and the
    receiver ends in the data model exactly when the decoded [M] is [2^B]
    with [B] below the width of [uint] and [R] has [M] entries.  Nothing of
    this is checked by the code. *)
Theorem Unserialize_data_model
    (unmarshal : string -> DataObj * option string)
    (h : HyperLogLog) (str : string) (d : DataObj) :
  unmarshal str = (d, None) ->
  let h' := (Unserialize unmarshal h str).1 in
  registers h' = map (fun v => v mod 256) (R d)
  /\ length (registers h') = length (R d)
  /\ Forall byte (registers h')
  /\ (valid h' <->
      M d = 2 ^ B d /\ 0 <= B d < uint_bits /\ Z.of_nat (length (R d)) = M d).
Proof.
  intros Hun h'. unfold h', Unserialize. rewrite Hun. cbn [fst registers].
  assert (Hbytes : Forall byte (map u8 (R d))).
  { induction (R d) as [| x l IH]; cbn [map]; constructor; [| exact IH].
    unfold byte, u8. apply Z.mod_pos_bound. lia. }
  split; [reflexivity |]. split; [apply length_map |]. split; [exact Hbytes |].
  split.
  - intros [Hm Hb Hlen _]. unfold length_invariant in Hlen.
    cbn [m b registers] in Hm, Hb, Hlen. rewrite length_map in Hlen.
    repeat split; tauto || assumption.
  - intros (Hm & Hb & Hlen). split; cbn [m b registers]; try assumption.
    unfold length_invariant. cbn [m registers]. rewrite length_map. exact Hlen.
Qed.

Lemma Unserialize_data_model_witness :
  valid (Unserialize unmarshal_samples estimator_A snapshot_16).1
  /\ ~ valid (Unserialize unmarshal_samples estimator_A snapshot_without_registers).1.
Proof.
  split.
  - apply (Unserialize_data_model unmarshal_samples estimator_A snapshot_16
             (mkDataObj 16 4 0.673 (replicate 16 0))); [vm_compute; reflexivity |].
    cbn [M B R]. unfold uint_bits. repeat split; lia || reflexivity.
  - intros Hv.
    apply (Unserialize_data_model unmarshal_samples estimator_A snapshot_without_registers
             (mkDataObj 16 4 0.673 [])) in Hv; [| vm_compute; reflexivity].
    destruct Hv as (_ & _ & Hlen). discriminate Hlen.
Defined.

(** X21.  Taking the data of an estimator just decoded gives back the decoded
    data exactly when every decoded register is a byte; any other register
    value is replaced by its low byte. *)
Theorem SerializeData_after_Unserialize
    (unmarshal : string -> DataObj * option string)
    (h : HyperLogLog) (str : string) (d : DataObj) :
  unmarshal str = (d, None) ->
  (SerializeData (Unserialize unmarshal h str).1 = d <-> Forall byte (R d)).
Proof.
  intros Hun. unfold Unserialize. rewrite Hun. cbn [fst].
  rewrite SerializeData_fields. cbn [m b alpha registers].
  rewrite <- map_u8_bytes. destruct d as [dM dB dA dR]. cbn [M B A R].
  split.
  - intros [= E]. exact E.
  - intros ->. reflexivity.
Qed.

Lemma SerializeData_after_Unserialize_witness :
  SerializeData (Unserialize unmarshal_samples estimator_A snapshot_16).1
  = mkDataObj 16 4 0.673 (replicate 16 0).
Proof.
  apply (SerializeData_after_Unserialize unmarshal_samples estimator_A snapshot_16
           (mkDataObj 16 4 0.673 (replicate 16 0))).
  - vm_compute. reflexivity.
  - apply Forall_replicate. unfold byte. lia.
Defined.

(** ** A new estimator *)



(** ** What a stream of hashes leaves in the registers *)

(** After a stream of hashes each register holds a value that is at least
    its old value and at least the rank of every hash of its bucket, and
    that is its old value or the rank of one of these hashes. *)
Lemma Add_all_registers (fuel : nat) (hashes : list Z) :
  forall h : HyperLogLog,
    valid h -> b h <= 32 -> Forall hash32 hashes -> (33 <= fuel)%nat ->
    exists h',
      Add_all fuel h hashes = Done h'
      /\ m h' = m h /\ b h' = b h /\ alpha h' = alpha h
      /\ length (registers h') = length (registers h)
      /\ forall (i : nat) (old : Z),
           registers h !! i = Some old ->
           exists new,
             registers h' !! i = Some new
             /\ old <= new
             /\ (forall v, v ∈ hashes -> Z.to_nat (Z.shiftr v (32 - b h)) = i ->
                   rank (shl32 v (b h)) (32 - b h) <= new)
             /\ (new = old
                 \/ exists v, v ∈ hashes /\ Z.to_nat (Z.shiftr v (32 - b h)) = i
                      /\ new = rank (shl32 v (b h)) (32 - b h)).
Proof.
  induction hashes as [| v l IH]; intros h Hvalid Hb32 Hhashes Hfuel.
  - exists h. split; [reflexivity |]. repeat (split; [reflexivity |]).
    intros i old Hold. exists old. split; [exact Hold |]. split; [lia |].
    split; [| left; reflexivity].
    intros v Hv. apply elem_of_nil in Hv. contradiction.
  - inversion Hhashes as [| ? ? Hv Hl]; subst.
    destruct (Add_step fuel h v Hvalid Hb32 Hv Hfuel) as (h1 & E1 & Hvalid1 & _ & _).
    destruct (Add_fields _ _ _ _ E1) as (Hm1 & Hb1 & Ha1).
    destruct Hvalid as [Hm Hb Hlen _]. unfold length_invariant in Hlen.
    unfold hash32 in Hv.
    destruct (Add_returns fuel h v ltac:(lia) ltac:(lia) Hv Hfuel)
      as (Hj & oldj & Holdj & E).
    rewrite E in E1. injection E1 as E1.
    set (j := Z.to_nat (Z.shiftr v (32 - b h))) in *.
    set (r := rank (shl32 v (b h)) (32 - b h)) in *.
    destruct (IH h1 Hvalid1 ltac:(lia) Hl Hfuel)
      as (h' & Hall & Hm' & Hb' & Ha' & Hlen' & Hregs).
    rewrite Hb1 in Hregs.
    assert (Hregs1 : registers h1 = <[j := Z.max oldj r]> (registers h))
      by (rewrite <- E1; reflexivity).
    exists h'. rewrite Add_all_cons, E, E1. cbn [mbind exec_bind].
    split; [exact Hall |].
    split; [congruence |]. split; [congruence |]. split; [congruence |].
    split; [rewrite Hlen', Hregs1; apply length_insert |].
    intros i old Hold.
    destruct (Nat.eq_dec j i) as [<- | NE].
    + assert (oldj = old) by congruence. subst oldj.
      destruct (Hregs j (Z.max old r)) as (new & Hnew & Hle & Hall_le & Hsome).
      { rewrite Hregs1. apply list_lookup_insert_eq. eapply lookup_lt_Some. exact Hold. }
      exists new. split; [exact Hnew |]. split; [lia |]. split.
      * intros v' Hv' Hidx. apply elem_of_cons in Hv' as [-> | Hv'].
        -- fold r. lia.
        -- apply Hall_le; assumption.
      * destruct Hsome as [Hsame | (v' & Hv' & Hidx & Hrank)].
        -- destruct (Z.max_spec old r) as [[_ Hmax] | [_ Hmax]].
           ++ right. exists v. split; [apply list_elem_of_here |].
              split; [reflexivity |]. fold r. congruence.
           ++ left. congruence.
        -- right. exists v'. split; [apply list_elem_of_further; exact Hv' |].
           split; assumption.
    + destruct (Hregs i old) as (new & Hnew & Hle & Hall_le & Hsome).
      { rewrite Hregs1, list_lookup_insert_ne by exact NE. exact Hold. }
      exists new. split; [exact Hnew |]. split; [exact Hle |]. split.
      * intros v' Hv' Hidx. apply elem_of_cons in Hv' as [-> | Hv'].
        -- contradiction.
        -- apply Hall_le; assumption.
      * destruct Hsome as [Hsame | (v' & Hv' & Hidx & Hrank)]; [left; exact Hsame |].
        right. exists v'. split; [apply list_elem_of_further; exact Hv' |].
        split; assumption.
Qed.

(** X23.  After a stream of 32-bit hashes, a register that no hash of the
    stream selects is unchanged, and a register that some hash selects holds
    the largest of its old value and the ranks of the hashes that select
    it. *)
Theorem Add_all_registers_hold_max_rank
    (fuel : nat) (h h' : HyperLogLog) (hashes : list Z) (i : nat) (old : Z) :
  valid h -> b h <= 32 -> Forall hash32 hashes -> (33 <= fuel)%nat ->
  Add_all fuel h hashes = Done h' ->
  registers h !! i = Some old ->
  let bucket v := Z.to_nat (Z.shiftr v (32 - b h)) = i in
  let rank_of v := rank (shl32 v (b h)) (32 - b h) in
  exists new,
    registers h' !! i = Some new
    /\ old <= new
    /\ (forall v, v ∈ hashes -> bucket v -> rank_of v <= new)
    /\ (new = old \/ exists v, v ∈ hashes /\ bucket v /\ new = rank_of v)
    /\ ((forall v, v ∈ hashes -> ~ bucket v) -> new = old).
Proof.
  intros Hvalid Hb32 Hhashes Hfuel Hall Hold bucket rank_of.
  destruct (Add_all_registers fuel hashes h Hvalid Hb32 Hhashes Hfuel)
    as (h1 & Hall1 & _ & _ & _ & _ & Hregs).
  assert (h1 = h') by congruence. subst h1.
  destruct (Hregs i old Hold) as (new & Hnew & Hle & Hall_le & Hsome).
  exists new. split; [exact Hnew |]. split; [exact Hle |].
  split; [exact Hall_le |]. split; [exact Hsome |].
  intros Hnone. destruct Hsome as [Hsame | (v & Hv & Hidx & _)]; [exact Hsame |].
  exfalso. exact (Hnone v Hv Hidx).
Qed.

Lemma Add_all_registers_hold_max_rank_witness :
  exists new,
    registers estimator_A !! 3%nat = Some new
    /\ 0 <= new
    /\ (forall v, v ∈ hashes_A -> Z.to_nat (Z.shiftr v (32 - 4)) = 3%nat ->
          rank (shl32 v 4) (32 - 4) <= new)
    /\ (new = 0 \/ exists v, v ∈ hashes_A /\ Z.to_nat (Z.shiftr v (32 - 4)) = 3%nat
                      /\ new = rank (shl32 v 4) (32 - 4))
    /\ ((forall v, v ∈ hashes_A -> ~ Z.to_nat (Z.shiftr v (32 - 4)) = 3%nat) -> new = 0).
Proof.
  apply (Add_all_registers_hold_max_rank 33 (mkHyperLogLog 16 4 0.673 (replicate 16 0))
           estimator_A hashes_A 3 0).
  - exact (valid_fresh 4 0.673 ltac:(unfold uint_bits; lia)).
  - simpl. lia.
  - unfold hashes_A. apply Forall_forall. intros x Hx.
    apply list_elem_of_fmap in Hx as (j & -> & Hj).
    apply elem_of_seqZ in Hj. unfold hash32. lia.
  - lia.
  - vm_compute. reflexivity.
  - reflexivity.
Defined.

(** X24.  The estimator depends on the set of hashes only: two streams of
    32-bit hashes with the same elements, in any order and with any
    repetitions, leave the same estimator. *)
Theorem Add_all_depends_on_the_set_of_hashes
    (fuel : nat) (h : HyperLogLog) (hashes hashes' : list Z) :
  valid h -> b h <= 32 -> Forall hash32 hashes -> (33 <= fuel)%nat ->
  (forall v, v ∈ hashes <-> v ∈ hashes') ->
  Add_all fuel h hashes = Add_all fuel h hashes'.
Proof.
  intros Hvalid Hb32 Hhashes Hfuel Hsame.
  assert (Hhashes' : Forall hash32 hashes').
  { rewrite Forall_forall in Hhashes. apply Forall_forall. intros v Hv.
    apply Hhashes, Hsame, Hv. }
  destruct (Add_all_registers fuel hashes h Hvalid Hb32 Hhashes Hfuel)
    as (h1 & E1 & Hm1 & Hb1 & Ha1 & Hlen1 & Hregs1).
  destruct (Add_all_registers fuel hashes' h Hvalid Hb32 Hhashes' Hfuel)
    as (h2 & E2 & Hm2 & Hb2 & Ha2 & Hlen2 & Hregs2).
  rewrite E1, E2. f_equal.
  assert (Hregs : registers h1 = registers h2).
  { apply list_eq. intros i.
    destruct (registers h !! i) as [old |] eqn:Hold.
    - destruct (Hregs1 i old Hold) as (n1 & Hn1 & Hle1 & Hall1 & Hsome1).
      destruct (Hregs2 i old Hold) as (n2 & Hn2 & Hle2 & Hall2 & Hsome2).
      rewrite Hn1, Hn2. f_equal. apply Z.le_antisymm.
      + destruct Hsome1 as [-> | (v & Hv & Hidx & ->)]; [exact Hle2 |].
        apply Hall2; [apply Hsame; exact Hv | exact Hidx].
      + destruct Hsome2 as [-> | (v & Hv & Hidx & ->)]; [exact Hle1 |].
        apply Hall1; [apply Hsame; exact Hv | exact Hidx].
    - apply lookup_ge_None in Hold.
      rewrite (lookup_ge_None_2 (registers h1)), (lookup_ge_None_2 (registers h2)) by lia.
      reflexivity. }
  destruct h1 as [m1 b1 a1 regs1], h2 as [m2 b2 a2 regs2].
  cbn [m b alpha registers] in *. congruence.
Qed.

Lemma Add_all_depends_on_the_set_of_hashes_witness :
  Add_all 33 (mkHyperLogLog 16 4 0.673 (replicate 16 0))
    [0x20000001; 0x10000001; 0x20000001]
  = Add_all 33 (mkHyperLogLog 16 4 0.673 (replicate 16 0)) [0x10000001; 0x20000001].
Proof.
  apply Add_all_depends_on_the_set_of_hashes.
  - exact (valid_fresh 4 0.673 ltac:(unfold uint_bits; lia)).
  - simpl. lia.
  - repeat constructor; unfold hash32; lia.
  - lia.
  - intros v. rewrite !elem_of_cons, !elem_of_nil. tauto.
Defined.

(** X25.  Merging is the union of streams: when two estimators are built
    from the same reset estimator by two streams of 32-bit hashes, merging
    the second into the first leaves the estimator that the two streams, one
    after the other, build. *)
Theorem Merge_is_union_of_streams
    (fuel : nat) (h0 hA hB : HyperLogLog) (hashesA hashesB : list Z) :
  valid h0 -> b h0 <= 32 -> Reset h0 = h0 ->
  Forall hash32 hashesA -> Forall hash32 hashesB -> (33 <= fuel)%nat ->
  Add_all fuel h0 hashesA = Done hA -> Add_all fuel h0 hashesB = Done hB ->
  exists hAB,
    Merge hA hB = Done (hAB, None)
    /\ Add_all fuel h0 (hashesA ++ hashesB) = Done hAB.
Proof.
  intros Hv0 Hb32 Hreset HhA HhB Hfuel HA HB.
  destruct (Add_all_valid fuel hashesA h0 Hv0 Hb32 HhA Hfuel) as (hA' & EA & HvA & HmA & HbA).
  assert (hA' = hA) by congruence. subst hA'.
  destruct (Add_all_valid fuel hashesB h0 Hv0 Hb32 HhB Hfuel) as (hB' & EB & HvB & HmB & _).
  assert (hB' = hB) by congruence. subst hB'.
  pose proof (Add_all_under_merge fuel hA hashesB h0 hB HvA Hv0 HmA ltac:(lia) HhB Hfuel HB)
    as Hunder.
  assert (Hzeros : zip_with Z.max (registers hA) (registers h0) = registers hA).
  { destruct HvA as [_ _ HlenA HbytesA]. unfold length_invariant in HlenA.
    rewrite <- Hreset. cbn [Reset set_registers registers].
    rewrite zip_with_max_comm. apply zip_with_max_zeros; [exact HbytesA | lia]. }
  rewrite Hzeros in Hunder.
  replace (set_registers hA (registers hA)) with hA in Hunder by (destruct hA; reflexivity).
  destruct (Merge_valid hA hB HvA HvB ltac:(congruence)) as (Hmerge & _ & _).
  eexists. split; [exact Hmerge |].
  unfold Add_all. rewrite foldl_app. fold (Add_all fuel h0 hashesA).
  rewrite HA, Add_all_from. cbn [mbind exec_bind]. exact Hunder.
Qed.

Lemma Merge_is_union_of_streams_witness :
  exists hAB,
    Merge estimator_A estimator_B = Done (hAB, None)
    /\ Add_all 33 (mkHyperLogLog 16 4 0.673 (replicate 16 0)) (hashes_A ++ hashes_B)
       = Done hAB.
Proof.
  apply (Merge_is_union_of_streams 33 (mkHyperLogLog 16 4 0.673 (replicate 16 0))).
  - exact (valid_fresh 4 0.673 ltac:(unfold uint_bits; lia)).
  - simpl. lia.
  - reflexivity.
  - unfold hashes_A. apply Forall_forall. intros x Hx.
    apply list_elem_of_fmap in Hx as (j & -> & Hj).
    apply elem_of_seqZ in Hj. unfold hash32. lia.
  - repeat constructor; unfold hash32; lia.
  - lia.
  - vm_compute. reflexivity.
  - vm_compute. reflexivity.
Defined.
